(** * multilingual-translator: the translator view, the authentication gate
    and the profile page, as a shallow embedding.

  The program is a React front-end.  What is modelled here:
  - [JS]: the few pieces of JavaScript the components rely on (strings as
    sequences of UTF-16 code units, [trim], [split], truthiness, [||],
    property access on a parsed JSON value);
  - [PrivateRoute]: [src/components/PrivateRoute.js];
  - [ProfilePage]: the [onAuthStateChanged] handler of [src/pages/profile.js];
  - [TranslatorPage]: the handlers and the [recording] effect of the translator
    page, run by an event loop whose events are the user's clicks and the
    browser's callbacks (promises settling, animation frames, recorder
    events, unmount). *)

From Stdlib Require Import ZArith NArith Lia Bool.
From Stdlib Require Import Strings.String Strings.Ascii.
From stdpp Require Import base option list gmap.

Local Open Scope N_scope.

(* ===================================================================== *)
(** ** JavaScript values                                                  *)
(* ===================================================================== *)

Module JS.

(** A JavaScript string is a sequence of UTF-16 code units. *)
Definition jsstring : Type := list N.

(** A string literal of the source (all of them are ASCII). *)
Definition lit (s : string) : jsstring :=
  List.map N_of_ascii (list_ascii_of_string s).

(** [WhiteSpace] and [LineTerminator] of ECMAScript: what
    [String.prototype.trim] strips. *)
Definition is_white (c : N) : bool :=
  (c =? 9) || (c =? 10) || (c =? 11) || (c =? 12) || (c =? 13) ||
  (c =? 32) || (c =? 160) || (c =? 5760) ||
  ((8192 <=? c) && (c <=? 8202)) ||
  (c =? 8232) || (c =? 8233) || (c =? 8239) || (c =? 8287) ||
  (c =? 12288) || (c =? 65279).

Fixpoint trimStart (s : jsstring) : jsstring :=
  match s with
  | c :: s' => if is_white c then trimStart s' else s
  | [] => []
  end.

Definition trimEnd (s : jsstring) : jsstring := rev (trimStart (rev s)).

(** [s.trim()] *)
Definition trim (s : jsstring) : jsstring := trimEnd (trimStart s).

(** [s.split(sep)] for a separator of one code unit: the fields between
    the occurrences of [sep]; never the empty array. *)
Fixpoint split (sep : N) (s : jsstring) : list jsstring :=
  match s with
  | [] => [[]]
  | c :: s' =>
      if c =? sep then [] :: split sep s'
      else match split sep s' with
           | f :: fs => (c :: f) :: fs
           | [] => [[c]]
           end
  end.

(** The values a state variable or a parsed response body may hold.
    Numbers are kept as integers: this program only ever tests them for
    being zero. *)
#[local] Unset Elimination Schemes.
Inductive jsval : Type :=
| JUndefined
| JNull
| JBool (b : bool)
| JNum (z : Z)
| JStr (s : jsstring)
| JArr (items : list jsval)
| JObj (fields : list (jsstring * jsval)).
#[local] Set Elimination Schemes.

(** [ToBoolean] *)
Definition truthy (v : jsval) : bool :=
  match v with
  | JUndefined | JNull => false
  | JBool b => b
  | JNum z => negb (z =? 0)%Z
  | JStr s => match s with [] => false | _ => true end
  | JArr _ | JObj _ => true
  end.

(** [a || b] *)
Definition orElse (a b : jsval) : jsval := if truthy a then a else b.

Fixpoint assoc (k : jsstring) (fields : list (jsstring * jsval)) : jsval :=
  match fields with
  | [] => JUndefined
  | (k', v) :: rest => if decide (k = k') then v else assoc k rest
  end.

(** [data.k] for a key [k] that no prototype defines ([audio_url],
    [error], [transcription], [translated_text]): [None] is the
    [TypeError] of reading a property of [null] or [undefined]. *)
Definition get (data : jsval) (k : jsstring) : option jsval :=
  match data with
  | JUndefined | JNull => None
  | JObj fields => Some (assoc k fields)
  | JBool _ | JNum _ | JStr _ | JArr _ => Some JUndefined
  end.

(** [a[i] || ""] on an array of strings. *)
Definition field_or_empty (a : list jsstring) (i : nat) : jsstring :=
  match a !! i with
  | Some (c :: f) => c :: f
  | Some [] | None => []
  end.

End JS.
Import JS.

(* ===================================================================== *)
(** ** The authentication gate: [PrivateRoute]                            *)
(* ===================================================================== *)

Module PrivateRoute.

Section WithElement.

(** The identity the provider delivers, and the protected element. *)
Variables (User Element : Type).

Record state : Type := { user : option User; loading : bool }.

(** [useState(null)], [useState(true)] *)
Definition init : state := {| user := None; loading := true |}.

(** The callback given to [auth.onAuthStateChanged]. *)
Definition onAuthStateChanged (currentUser : option User) (_ : state) : state :=
  {| user := currentUser; loading := false |}.

Inductive view : Type :=
| Loading                       (* <p>Loading...</p> *)
| Protected (e : Element)       (* element *)
| Navigate (to : jsstring).     (* <Navigate to=... /> *)

Definition render (element : Element) (st : state) : view :=
  if loading st then Loading
  else match user st with
       | Some _ => Protected element
       | None => Navigate (lit "/login")
       end.

(** The provider pushes identities one after the other while the gate is
    mounted. *)
Definition run (pushes : list (option User)) (st : state) : state :=
  fold_left (fun s u => onAuthStateChanged u s) pushes st.

End WithElement.

Arguments Loading {Element}.
Arguments Protected {Element} e.
Arguments Navigate {Element} to.
Arguments init {User}.
Arguments render {User Element} element st.
Arguments run {User} pushes st.
Arguments onAuthStateChanged {User} currentUser _.
Arguments user {User} _.
Arguments loading {User} _.

End PrivateRoute.

(* ===================================================================== *)
(** ** The profile page: the [onAuthStateChanged] handler of [Profile]    *)
(* ===================================================================== *)

Module ProfilePage.

(** The provider's identity: [email], [displayName] and [photoURL] are
    [string | null]. *)
Record User : Type := {
  uid : jsstring;
  email : option jsstring;
  displayName : option jsstring;
  photoURL : option jsstring;
}.

(** A document of the ["Users"] collection. *)
Record userData : Type := {
  ud_email : option jsstring;
  firstName : jsstring;
  lastName : jsstring;
  photo : option jsstring;
}.

(** [docSnap.exists()] / [docSnap.data()] / [setDoc], on the collection
    keyed by [uid]; and the component's [userDetails]. *)
Record world : Type := {
  Users : gmap jsstring userData;
  userDetails : option userData;
}.

Inductive completion : Type :=
| Fulfilled                 (* the async handler ran to its end *)
| RejectedTypeError.        (* reading [split] of [null] *)

(** [async (user) => { if (user) { ... } }] *)
Definition handler (user : option User) (w : world) : completion * world :=
  match user with
  | None => (Fulfilled, w)
  | Some user =>
      match Users w !! uid user with
      | Some data =>
          (Fulfilled, {| Users := Users w; userDetails := Some data |})
      | None =>
          match displayName user with
          | None => (RejectedTypeError, w)
          | Some name =>
              let userData :=
                {| ud_email := email user;
                   firstName := default [] (split 32 name !! 0%nat);
                   lastName := field_or_empty (split 32 name) 1;
                   photo := photoURL user |} in
              (Fulfilled,
               {| Users := <[uid user := userData]> (Users w);
                  userDetails := Some userData |})
          end
      end
  end.

(** The claim's reading of the two names, in the spec's words: the words
    of the display name are its maximal runs of non-whitespace. *)
Fixpoint spec_words_from (cur : jsstring) (s : jsstring) : list jsstring :=
  match s with
  | [] => match cur with [] => [] | _ => [rev cur] end
  | c :: s' =>
      if is_white c
      then match cur with
           | [] => spec_words_from [] s'
           | _ => rev cur :: spec_words_from [] s'
           end
      else spec_words_from (c :: cur) s'
  end.

Definition spec_words (s : jsstring) : list jsstring := spec_words_from [] s.

Definition spec_userData (user : User) (name : jsstring) : userData :=
  {| ud_email := email user;
     firstName := default [] (spec_words name !! 0%nat);
     lastName := default [] (spec_words name !! 1%nat);
     photo := photoURL user |}.

(** Words joined by single spaces. *)
Fixpoint join (ws : list jsstring) : jsstring :=
  match ws with
  | [] => []
  | [w] => w
  | w :: ws' => w ++ 32 :: join ws'
  end.

(** The claim as worded: with no record stored, a record made of the
    first and the second whitespace-separated word is what gets written. *)
Definition writes_spec_words (user : User) (name : jsstring) : Prop :=
  forall w, Users w !! uid user = None ->
    Users (snd (handler (Some user) w)) !! uid user = Some (spec_userData user name).

Definition nobody : world := {| Users := ∅; userDetails := None |}.

Definition ada : User :=
  {| uid := lit "u1"; email := Some (lit "ada@example.org");
     displayName := Some (lit "Ada  Lovelace"); photoURL := None |}.

Definition grace : User :=
  {| uid := lit "u2"; email := None;
     displayName := Some (lit "Grace Hopper"); photoURL := None |}.

End ProfilePage.

(* ===================================================================== *)
(** ** The translator page                                                *)
(* ===================================================================== *)

Module TranslatorPage.

(** Binary data: an audio chunk, a recorded payload, an uploaded file. *)
Definition blob : Type := list Byte.byte.

(** What is thrown or what a promise is rejected with. *)
Inductive exn : Type :=
| TypeError (prop : string)      (* reading [prop] of [null] *)
| Rejection (msg : jsstring).    (* a rejected promise, with its [message] *)

(** [err.message]; the wording of a [TypeError] is the engine's. *)
Definition message (e : exn) : jsstring :=
  match e with
  | TypeError prop =>
      lit "Cannot read properties of null (reading '" ++ lit prop ++ lit "')"
  | Rejection msg => msg
  end.

(** The body of a request to the backend. *)
Inductive payload : Type :=
| FormAudio (filename : jsstring) (audio : blob)
| JsonText (source_language target_language text : jsstring).

(** The three places that submit to the backend. *)
Inductive submission : Type := FromRecording | FromText | FromFile.

(** What is waiting on a pending promise. *)
Inductive continuation : Type :=
| AwaitInStart                   (* [await getUserMedia] of startRecording *)
| ThenInEffect                   (* [.then/.catch] of the recording effect *)
| AwaitFetch (s : submission).   (* [await fetch] / [fetch().then] *)

(** How a [fetch] settles: rejected, or a response with its [ok] flag and
    its body ([None]: [response.json()] rejects). *)
Inductive response : Type :=
| NetworkError
| Response (ok : bool) (body : option jsval).

(** A [MediaRecorder]: inactive (new, or stopped and done); recording;
    [stop()] called, with [dataavailable] and [stop] still to be fired. *)
Inductive recorderState : Type := RecInactive | RecRecording | RecStopping.

(** What the page does to the outside, in the order it does it. *)
Inductive effect : Type :=
| Alert (msg : jsstring)
| StreamOpened (s : nat)              (* getUserMedia resolved with stream s *)
| RecorderStarted (r : nat)
| RecorderStopCalled (r : nat)
| ContextCreated (c : nat)
| ContextClosed (c : nat)
| CanvasCleared                       (* clearRect of the recording effect *)
| Draw                                (* drawWaveform entered: its clearRect *)
| Stroke                              (* drawWaveform painted the trace *)
| FrameRequested (id : nat)
| FrameCancelled (id : nat)
| Fetch (p : nat) (url : jsstring) (body : payload)
| Play (url : jsval)                  (* new Audio(url).play() *)
| Uncaught (e : exn).

(** [useState] *)
Record reactState : Type := {
  text : jsstring;
  translatedText : jsval;
  displayedText : jsval;
  sourceLanguage : jsstring;
  targetLanguage : jsstring;
  isTranslating : bool;
  error : jsval;
  recording : bool;
}.

(** [useRef]: the [.current] of each ref.  A recorder, a context, an
    analyser are named by their index of creation; the analyser and the
    source node by the context they were created on. *)
Record refs : Type := {
  mediaRecorderRef : option nat;
  audioChunksRef : list blob;
  animationIdRef : option nat;
  audioContextRef : option nat;
  analyserRef : option nat;
  sourceRef : option (nat * nat);
}.

(** The browser: whether [navigator.mediaDevices.getUserMedia] exists, the
    number of microphone streams opened so far (the source never stops a
    track), the recorders and audio contexts created so far (a context is
    [true] while open), the pending promises, the pending animation
    frames, and the trace of effects (latest first). *)
Record browser : Type := {
  captureSupported : bool;
  streams : nat;
  recorders : list recorderState;
  contexts : list bool;
  pending : gmap nat continuation;
  nextPromise : nat;
  frames : gset nat;
  nextFrame : nat;
  log : list effect;
}.

(** The mounted component and its surroundings.  [effectDep] is the value
    of [recording] the effect last ran with. *)
Record world : Type := {
  state : reactState;
  ref : refs;
  mounted : bool;
  effectDep : bool;
  env : browser;
}.

(** *** Field updates *)

Definition with_state (f : reactState -> reactState) (w : world) : world :=
  {| state := f (state w); ref := ref w; mounted := mounted w;
     effectDep := effectDep w; env := env w |}.
Definition with_ref (f : refs -> refs) (w : world) : world :=
  {| state := state w; ref := f (ref w); mounted := mounted w;
     effectDep := effectDep w; env := env w |}.
Definition with_env (f : browser -> browser) (w : world) : world :=
  {| state := state w; ref := ref w; mounted := mounted w;
     effectDep := effectDep w; env := f (env w) |}.
Definition with_mounted (b : bool) (w : world) : world :=
  {| state := state w; ref := ref w; mounted := b;
     effectDep := effectDep w; env := env w |}.
Definition with_effectDep (b : bool) (w : world) : world :=
  {| state := state w; ref := ref w; mounted := mounted w;
     effectDep := b; env := env w |}.

Definition put_text v (s : reactState) : reactState :=
  {| text := v; translatedText := translatedText s; displayedText := displayedText s;
     sourceLanguage := sourceLanguage s; targetLanguage := targetLanguage s;
     isTranslating := isTranslating s; error := error s; recording := recording s |}.
Definition put_translatedText v (s : reactState) : reactState :=
  {| text := text s; translatedText := v; displayedText := displayedText s;
     sourceLanguage := sourceLanguage s; targetLanguage := targetLanguage s;
     isTranslating := isTranslating s; error := error s; recording := recording s |}.
Definition put_displayedText v (s : reactState) : reactState :=
  {| text := text s; translatedText := translatedText s; displayedText := v;
     sourceLanguage := sourceLanguage s; targetLanguage := targetLanguage s;
     isTranslating := isTranslating s; error := error s; recording := recording s |}.
Definition put_sourceLanguage v (s : reactState) : reactState :=
  {| text := text s; translatedText := translatedText s; displayedText := displayedText s;
     sourceLanguage := v; targetLanguage := targetLanguage s;
     isTranslating := isTranslating s; error := error s; recording := recording s |}.
Definition put_targetLanguage v (s : reactState) : reactState :=
  {| text := text s; translatedText := translatedText s; displayedText := displayedText s;
     sourceLanguage := sourceLanguage s; targetLanguage := v;
     isTranslating := isTranslating s; error := error s; recording := recording s |}.
Definition put_isTranslating v (s : reactState) : reactState :=
  {| text := text s; translatedText := translatedText s; displayedText := displayedText s;
     sourceLanguage := sourceLanguage s; targetLanguage := targetLanguage s;
     isTranslating := v; error := error s; recording := recording s |}.
Definition put_error v (s : reactState) : reactState :=
  {| text := text s; translatedText := translatedText s; displayedText := displayedText s;
     sourceLanguage := sourceLanguage s; targetLanguage := targetLanguage s;
     isTranslating := isTranslating s; error := v; recording := recording s |}.
Definition put_recording v (s : reactState) : reactState :=
  {| text := text s; translatedText := translatedText s; displayedText := displayedText s;
     sourceLanguage := sourceLanguage s; targetLanguage := targetLanguage s;
     isTranslating := isTranslating s; error := error s; recording := v |}.

Definition put_mediaRecorderRef v (r : refs) : refs :=
  {| mediaRecorderRef := v; audioChunksRef := audioChunksRef r;
     animationIdRef := animationIdRef r; audioContextRef := audioContextRef r;
     analyserRef := analyserRef r; sourceRef := sourceRef r |}.
Definition put_audioChunksRef v (r : refs) : refs :=
  {| mediaRecorderRef := mediaRecorderRef r; audioChunksRef := v;
     animationIdRef := animationIdRef r; audioContextRef := audioContextRef r;
     analyserRef := analyserRef r; sourceRef := sourceRef r |}.
Definition put_animationIdRef v (r : refs) : refs :=
  {| mediaRecorderRef := mediaRecorderRef r; audioChunksRef := audioChunksRef r;
     animationIdRef := v; audioContextRef := audioContextRef r;
     analyserRef := analyserRef r; sourceRef := sourceRef r |}.
Definition put_audioContextRef v (r : refs) : refs :=
  {| mediaRecorderRef := mediaRecorderRef r; audioChunksRef := audioChunksRef r;
     animationIdRef := animationIdRef r; audioContextRef := v;
     analyserRef := analyserRef r; sourceRef := sourceRef r |}.
Definition put_analyserRef v (r : refs) : refs :=
  {| mediaRecorderRef := mediaRecorderRef r; audioChunksRef := audioChunksRef r;
     animationIdRef := animationIdRef r; audioContextRef := audioContextRef r;
     analyserRef := v; sourceRef := sourceRef r |}.
Definition put_sourceRef v (r : refs) : refs :=
  {| mediaRecorderRef := mediaRecorderRef r; audioChunksRef := audioChunksRef r;
     animationIdRef := animationIdRef r; audioContextRef := audioContextRef r;
     analyserRef := analyserRef r; sourceRef := v |}.

Definition put_streams v (b : browser) : browser :=
  {| captureSupported := captureSupported b; streams := v; recorders := recorders b;
     contexts := contexts b; pending := pending b; nextPromise := nextPromise b;
     frames := frames b; nextFrame := nextFrame b; log := log b |}.
Definition put_recorders v (b : browser) : browser :=
  {| captureSupported := captureSupported b; streams := streams b; recorders := v;
     contexts := contexts b; pending := pending b; nextPromise := nextPromise b;
     frames := frames b; nextFrame := nextFrame b; log := log b |}.
Definition put_contexts v (b : browser) : browser :=
  {| captureSupported := captureSupported b; streams := streams b; recorders := recorders b;
     contexts := v; pending := pending b; nextPromise := nextPromise b;
     frames := frames b; nextFrame := nextFrame b; log := log b |}.
Definition put_pending v (b : browser) : browser :=
  {| captureSupported := captureSupported b; streams := streams b; recorders := recorders b;
     contexts := contexts b; pending := v; nextPromise := nextPromise b;
     frames := frames b; nextFrame := nextFrame b; log := log b |}.
Definition put_nextPromise v (b : browser) : browser :=
  {| captureSupported := captureSupported b; streams := streams b; recorders := recorders b;
     contexts := contexts b; pending := pending b; nextPromise := v;
     frames := frames b; nextFrame := nextFrame b; log := log b |}.
Definition put_frames v (b : browser) : browser :=
  {| captureSupported := captureSupported b; streams := streams b; recorders := recorders b;
     contexts := contexts b; pending := pending b; nextPromise := nextPromise b;
     frames := v; nextFrame := nextFrame b; log := log b |}.
Definition put_nextFrame v (b : browser) : browser :=
  {| captureSupported := captureSupported b; streams := streams b; recorders := recorders b;
     contexts := contexts b; pending := pending b; nextPromise := nextPromise b;
     frames := frames b; nextFrame := v; log := log b |}.
Definition put_log v (b : browser) : browser :=
  {| captureSupported := captureSupported b; streams := streams b; recorders := recorders b;
     contexts := contexts b; pending := pending b; nextPromise := nextPromise b;
     frames := frames b; nextFrame := nextFrame b; log := v |}.

(** *** The monad of handlers: state passing with exceptions *)

Definition M (A : Type) : Type := world -> (exn + A) * world.

Definition ret {A} (a : A) : M A := fun w => (inr a, w).
Definition bind {A B} (m : M A) (k : A -> M B) : M B :=
  fun w => match m w with
           | (inl e, w') => (inl e, w')
           | (inr a, w') => k a w'
           end.
Definition throw {A} (e : exn) : M A := fun w => (inl e, w).
(** [try { m } catch (err) { h err }] *)
Definition try_catch (m : M unit) (h : exn -> M unit) : M unit :=
  fun w => match m w with
           | (inl e, w') => h e w'
           | (inr a, w') => (inr a, w')
           end.
Definition gets {A} (f : world -> A) : M A := fun w => (inr (f w), w).
Definition modify (f : world -> world) : M unit := fun w => (inr tt, f w).

Declare Scope js_scope.
Delimit Scope js_scope with js.
Notation "x ← y ; z" := (bind y (fun x => z))
  (at level 20, y at level 100, z at level 200, only parsing) : js_scope.
Notation "y ;; z" := (bind y (fun _ => z))
  (at level 100, z at level 200, only parsing, right associativity) : js_scope.
Local Open Scope js_scope.

(** *** The browser's and React's primitives *)

(** A [useState] setter: React drops the update of an unmounted
    component. *)
Definition setState (f : reactState -> reactState) : M unit :=
  fun w => (inr tt, if mounted w then with_state f w else w).
Definition setText (v : jsstring) : M unit := setState (put_text v).
Definition setTranslatedText (v : jsval) : M unit := setState (put_translatedText v).
Definition setDisplayedText (v : jsval) : M unit := setState (put_displayedText v).
Definition setSourceLanguage (v : jsstring) : M unit := setState (put_sourceLanguage v).
Definition setTargetLanguage (v : jsstring) : M unit := setState (put_targetLanguage v).
Definition setIsTranslating (v : bool) : M unit := setState (put_isTranslating v).
Definition setError (v : jsval) : M unit := setState (put_error v).
Definition setRecording (v : bool) : M unit := setState (put_recording v).

(** [someRef.current = v] *)
Definition setRef (f : refs -> refs) : M unit := modify (with_ref f).

(** [someRef.current.prop]: a [TypeError] when the ref holds [null]. *)
Definition deref {A} (r : refs -> option A) (prop : string) : M A :=
  fun w => match r (ref w) with
           | Some a => (inr a, w)
           | None => (inl (TypeError prop), w)
           end.

Definition emit (e : effect) : M unit :=
  modify (with_env (fun b => put_log (e :: log b) b)).

Definition alert (msg : jsstring) : M unit := emit (Alert msg).

(** A new pending promise, with what waits on it. *)
Definition newPromise (k : continuation) : M nat :=
  p ← gets (fun w => nextPromise (env w)) ;
  modify (with_env (fun b =>
    put_nextPromise (S p) (put_pending (<[p := k]> (pending b)) b))) ;;
  ret p.

(** [navigator.mediaDevices.getUserMedia({ audio: true })] *)
Definition getUserMedia (k : continuation) : M unit :=
  _ ← newPromise k ; ret tt.

(** [fetch(url, { method: "POST", body })] *)
Definition fetch (url : jsstring) (body : payload) (s : submission) : M unit :=
  p ← newPromise (AwaitFetch s) ; emit (Fetch p url body).

(** The value of an awaited promise, or its rejection thrown. *)
Definition await {A} (settled : exn + A) : M A :=
  match settled with
  | inl e => throw e
  | inr a => ret a
  end.

(** [new MediaRecorder(stream)] *)
Definition newMediaRecorder (stream : nat) : M nat :=
  r ← gets (fun w => length (recorders (env w))) ;
  modify (with_env (fun b => put_recorders (recorders b ++ [RecInactive]) b)) ;;
  ret r.

(** [recorder.start()] *)
Definition recorderStart (r : nat) : M unit :=
  modify (with_env (fun b => put_recorders (<[r := RecRecording]> (recorders b)) b)) ;;
  emit (RecorderStarted r).

(** [recorder.stop()]: nothing when the recorder is not recording. *)
Definition recorderStop (r : nat) : M unit :=
  st ← gets (fun w => recorders (env w) !! r) ;
  match st with
  | Some RecRecording =>
      modify (with_env (fun b => put_recorders (<[r := RecStopping]> (recorders b)) b)) ;;
      emit (RecorderStopCalled r)
  | _ => ret tt
  end.

(** [new AudioContext()] *)
Definition newAudioContext : M nat :=
  c ← gets (fun w => length (contexts (env w))) ;
  modify (with_env (fun b => put_contexts (contexts b ++ [true]) b)) ;;
  emit (ContextCreated c) ;;
  ret c.

(** [context.close()] *)
Definition closeContext (c : nat) : M unit :=
  modify (with_env (fun b => put_contexts (<[c := false]> (contexts b)) b)) ;;
  emit (ContextClosed c).

(** [requestAnimationFrame(callback)]: the ids are positive. *)
Definition requestAnimationFrame : M nat :=
  id ← gets (fun w => nextFrame (env w)) ;
  modify (with_env (fun b => put_nextFrame (S id) (put_frames ({[id]} ∪ frames b) b))) ;;
  emit (FrameRequested id) ;;
  ret id.

(** [cancelAnimationFrame(id)] *)
Definition cancelAnimationFrame (id : nat) : M unit :=
  modify (with_env (fun b => put_frames (frames b ∖ {[id]}) b)) ;;
  emit (FrameCancelled id).

(** The browser opens a microphone stream for a granted request. *)
Definition openStream : M nat :=
  s ← gets (fun w => streams (env w)) ;
  modify (with_env (put_streams (S s))) ;;
  emit (StreamOpened s) ;;
  ret s.

(** [await fetch(...)]: the response, or the rejection thrown. *)
Definition awaitFetch (r : response) : M (bool * option jsval) :=
  match r with
  | NetworkError => throw (Rejection (lit "Failed to fetch"))
  | Response ok body => ret (ok, body)
  end.

(** [await response.json()] *)
Definition json (body : option jsval) : M jsval :=
  match body with
  | None => throw (Rejection (lit "Unexpected token in JSON"))
  | Some data => ret data
  end.

(** [data.k] *)
Definition prop (data : jsval) (k : string) : M jsval :=
  match get data (lit k) with
  | Some v => ret v
  | None => throw (TypeError k)
  end.

(** [new Audio(url).play()] *)
Definition play (url : jsval) : M unit := emit (Play url).

(** *** The handlers of [TranslatorPage]

    An [async] function is cut at its [await]: the part before it, which
    leaves a pending promise, and the part that runs when the promise
    settles ([_resume]). *)

Definition speechUrl : jsstring := lit "http://localhost:5000/speech-to-speech".
Definition textUrl : jsstring := lit "http://localhost:5000/text-to-speech".

Definition startRecording : M unit :=
  setError (JStr []) ;;
  supported ← gets (fun w => captureSupported (env w)) ;
  if negb supported then
    alert (lit "Audio recording not supported in this browser.")
  else
    getUserMedia AwaitInStart.

Definition startRecording_resume (settled : exn + nat) : M unit :=
  try_catch
    (stream ← await settled ;
     r ← newMediaRecorder stream ;
     setRef (put_mediaRecorderRef (Some r)) ;;
     setRef (put_audioChunksRef []) ;;
     (* ondataavailable and onstop are [ondataavailable] and
        [handleRecordingStop] below *)
     recorderStart r ;;
     setRecording true)
    (fun err =>
       setError (JStr (lit "Microphone access denied or error: " ++ message err))).

(** [mediaRecorderRef.current.ondataavailable] *)
Definition ondataavailable (data : blob) : M unit :=
  if (0 <? length data)%nat then
    setRef (fun r => put_audioChunksRef (audioChunksRef r ++ [data]) r)
  else ret tt.

Definition stopRecording : M unit :=
  r ← gets (fun w => mediaRecorderRef (ref w)) ;
  rec ← gets (fun w => recording (state w)) ;
  match r with
  | Some r => if rec then recorderStop r ;; setRecording false else ret tt
  | None => ret tt
  end.

(** [new Blob(parts)] *)
Definition Blob (parts : list blob) : blob := concat parts.

Definition handleRecordingStop : M unit :=
  chunks ← gets (fun w => audioChunksRef (ref w)) ;
  let audioBlob := Blob chunks in
  let formData := FormAudio (lit "recording.webm") audioBlob in
  setError (JStr []) ;;
  setIsTranslating true ;;
  setTranslatedText (JStr []) ;;
  setDisplayedText (JStr []) ;;
  fetch speechUrl formData FromRecording.

(** What the three submissions do with the parsed body; [needOk] is
    whether [response.ok] is part of the test. *)
Definition useResponse (needOk : bool) (textKey : string) (failed : string)
    (ok : bool) (data : jsval) : M unit :=
  good ← (if needOk && negb ok then ret false
          else u ← prop data "audio_url" ; ret (truthy u)) ;
  if (good : bool) then
    t ← prop data textKey ;
    setTranslatedText (orElse t (JStr [])) ;;
    u ← prop data "audio_url" ;
    play u
  else
    e ← prop data "error" ;
    setError (orElse e (JStr (lit failed))).

Definition handleRecordingStop_resume (settled : response) : M unit :=
  try_catch
    (response ← awaitFetch settled ;
     data ← json (snd response) ;
     useResponse true "transcription" "Failed to process speech." (fst response) data)
    (fun err => setError (JStr (lit "Connection error."))) ;;
  setIsTranslating false.

Definition handleTranslate : M unit :=
  text ← gets (fun w => text (state w)) ;
  if negb (truthy (JStr (trim text))) then
    setError (JStr (lit "Please enter or record some text to translate."))
  else
    setError (JStr []) ;;
    setIsTranslating true ;;
    setTranslatedText (JStr []) ;;
    setDisplayedText (JStr []) ;;
    source_language ← gets (fun w => sourceLanguage (state w)) ;
    target_language ← gets (fun w => targetLanguage (state w)) ;
    fetch textUrl (JsonText source_language target_language text) FromText.

Definition handleTranslate_resume (settled : response) : M unit :=
  try_catch
    (response ← awaitFetch settled ;
     data ← json (snd response) ;
     useResponse true "translated_text" "Translation failed." (fst response) data)
    (fun err => setError (JStr (lit "Connection error."))) ;;
  setIsTranslating false.

(** [e.target.files[0]] is a file, with its name, or [undefined]. *)
Definition handleFileUpload (file : option (jsstring * blob)) : M unit :=
  match file with
  | None => ret tt
  | Some (name, bytes) => fetch speechUrl (FormAudio name bytes) FromFile
  end.

(** [.then((res) => res.json()).then((data) => ...).catch(...)] *)
Definition handleFileUpload_resume (settled : response) : M unit :=
  try_catch
    (response ← awaitFetch settled ;
     data ← json (snd response) ;
     useResponse false "transcription" "Failed to process audio file." (fst response) data)
    (fun err => setError (JStr (lit "Connection error."))).

(** *** The effect on [recording] *)

(** [if (animationIdRef.current) cancelAnimationFrame(animationIdRef.current)] *)
Definition cancelPendingFrame : M unit :=
  id ← gets (fun w => animationIdRef (ref w)) ;
  match id with
  | Some (S n) => cancelAnimationFrame (S n)
  | Some O | None => ret tt
  end.

(** [if (audioContextRef.current) { close(); the three refs = null }] *)
Definition closeAudioContext : M unit :=
  c ← gets (fun w => audioContextRef (ref w)) ;
  match c with
  | Some c =>
      closeContext c ;;
      setRef (put_audioContextRef None) ;;
      setRef (put_analyserRef None) ;;
      setRef (put_sourceRef None)
  | None => ret tt
  end.

(** The function the effect returns when [recording] is true. *)
Definition cleanup : M unit :=
  cancelPendingFrame ;;
  closeAudioContext.

Definition drawWaveform : M unit :=
  emit Draw ;;
  _ ← deref analyserRef "getByteTimeDomainData" ;
  emit Stroke ;;
  id ← requestAnimationFrame ;
  setRef (put_animationIdRef (Some id)).

(** The body of the effect.  The canvas exists whenever the effect runs. *)
Definition recordingEffect (recording : bool) : M unit :=
  if negb recording then
    cancelPendingFrame ;;
    emit CanvasCleared ;;
    closeAudioContext
  else
    c ← newAudioContext ;
    setRef (put_audioContextRef (Some c)) ;;
    supported ← gets (fun w => captureSupported (env w)) ;
    if (supported : bool) then getUserMedia ThenInEffect
    else throw (TypeError "getUserMedia").

(** [.then((stream) => ...)] of the effect's [getUserMedia]. *)
Definition visualiser_then (stream : nat) : M unit :=
  c ← deref audioContextRef "createMediaStreamSource" ;
  setRef (put_sourceRef (Some (c, stream))) ;;
  c' ← deref audioContextRef "createAnalyser" ;
  setRef (put_analyserRef (Some c')) ;;
  drawWaveform.

(** [.then(...).catch((err) => ...)] *)
Definition visualiser_settled (settled : exn + nat) : M unit :=
  try_catch
    (stream ← await settled ;
     visualiser_then stream)
    (fun err =>
       setError (JStr (lit "Mic access denied or error: " ++ message err)) ;;
       setRecording false).

(** *** The event loop *)

Inductive event : Type :=
| ClickStart
| ClickStop
| ClickTranslate
| ClickClear
| TypeText (s : jsstring)
| SelectSource (code : jsstring)
| SelectTarget (code : jsstring)
| ChooseFile (file : option (jsstring * blob))
| MediaGranted (p : nat)
| MediaDenied (p : nat) (msg : jsstring)
| FetchSettled (p : nat) (r : response)
| Frame (id : nat)
| DataAvailable (r : nat) (data : blob)
| RecorderStop (r : nat)
| Unmount.

Definition forget (p : nat) : M unit :=
  modify (with_env (fun b => put_pending (delete p (pending b)) b)).

Definition setRecorder (r : nat) (st : recorderState) : M unit :=
  modify (with_env (fun b => put_recorders (<[r := st]> (recorders b)) b)).

(** A control of the page is there to be used only while the page is
    mounted. *)
Definition whenMounted (m : M unit) : M unit :=
  b ← gets mounted ; if (b : bool) then m else ret tt.

Definition dispatch (e : event) : M unit :=
  match e with
  | ClickStart =>
      (* the button is rendered when [!recording] *)
      rec ← gets (fun w => recording (state w)) ;
      if (rec : bool) then ret tt else whenMounted startRecording
  | ClickStop =>
      rec ← gets (fun w => recording (state w)) ;
      if (rec : bool) then whenMounted stopRecording else ret tt
  | ClickTranslate => whenMounted handleTranslate
  | ClickClear => whenMounted (setText [])
  | TypeText s => whenMounted (setText s)
  | SelectSource c => whenMounted (setSourceLanguage c)
  | SelectTarget c => whenMounted (setTargetLanguage c)
  | ChooseFile file => whenMounted (handleFileUpload file)
  | MediaGranted p =>
      k ← gets (fun w => pending (env w) !! p) ;
      match k with
      | Some AwaitInStart =>
          forget p ;; s ← openStream ; startRecording_resume (inr s)
      | Some ThenInEffect =>
          forget p ;; s ← openStream ; visualiser_settled (inr s)
      | _ => ret tt
      end
  | MediaDenied p msg =>
      k ← gets (fun w => pending (env w) !! p) ;
      match k with
      | Some AwaitInStart => forget p ;; startRecording_resume (inl (Rejection msg))
      | Some ThenInEffect => forget p ;; visualiser_settled (inl (Rejection msg))
      | _ => ret tt
      end
  | FetchSettled p r =>
      k ← gets (fun w => pending (env w) !! p) ;
      match k with
      | Some (AwaitFetch FromRecording) => forget p ;; handleRecordingStop_resume r
      | Some (AwaitFetch FromText) => forget p ;; handleTranslate_resume r
      | Some (AwaitFetch FromFile) => forget p ;; handleFileUpload_resume r
      | _ => ret tt
      end
  | Frame id =>
      due ← gets (fun w => bool_decide (id ∈ frames (env w))) ;
      if (due : bool) then
        modify (with_env (fun b => put_frames (frames b ∖ {[id]}) b)) ;;
        drawWaveform
      else ret tt
  | DataAvailable r data =>
      st ← gets (fun w => recorders (env w) !! r) ;
      match st with
      | Some RecRecording | Some RecStopping => ondataavailable data
      | _ => ret tt
      end
  | RecorderStop r =>
      st ← gets (fun w => recorders (env w) !! r) ;
      match st with
      | Some RecStopping => setRecorder r RecInactive ;; handleRecordingStop
      | _ => ret tt
      end
  | Unmount =>
      whenMounted
        (modify (with_mounted false) ;;
         dep ← gets effectDep ;
         if (dep : bool) then cleanup else ret tt)
  end.

(** React commits: when [recording] differs from what the effect last
    saw, the previous effect is cleaned up and the effect runs again.
    The other effect of the component, on [translatedText] (the interval
    that types the translation into [displayedText]), and the render are
    not part of a turn: [displayedText] is here what the handlers set, and
    what the page shows of [error] is [renderError] below. *)
Definition commit : M unit :=
  w ← gets (fun w => w) ;
  if mounted w && negb (eqb (recording (state w)) (effectDep w)) then
    (if effectDep w then cleanup else ret tt) ;;
    modify (with_effectDep (recording (state w))) ;;
    recordingEffect (recording (state w))
  else ret tt.

Definition uncaught (e : exn) : M unit := emit (Uncaught e).

(** One turn of the event loop: the callback, then React's commit. *)
Definition step (e : event) (w : world) : world :=
  snd ((try_catch (dispatch e) uncaught ;; try_catch commit uncaught) w).

Definition run (es : list event) (w : world) : world := fold_left (fun w e => step e w) es w.

(** The page before its first render. *)
Definition fresh (supported : bool) : world :=
  {| state := {| text := []; translatedText := JStr []; displayedText := JStr [];
                 sourceLanguage := lit "auto"; targetLanguage := lit "hi";
                 isTranslating := false; error := JStr []; recording := false |};
     ref := {| mediaRecorderRef := None; audioChunksRef := [];
               animationIdRef := None; audioContextRef := None;
               analyserRef := None; sourceRef := None |};
     mounted := true;
     effectDep := false;
     env := {| captureSupported := supported; streams := 0; recorders := [];
               contexts := []; pending := ∅; nextPromise := 0;
               frames := ∅; nextFrame := 1; log := [] |} |}.

(** The mounted page: the effect has run once, with [recording] false. *)
Definition mount (supported : bool) : world :=
  snd (recordingEffect false (fresh supported)).

(** *** The vocabulary of the claims *)

(** The chunks a recorder delivers, one [dataavailable] after the other. *)
Definition deliver (chunks : list blob) (w : world) : world :=
  fold_left (fun w data => snd (ondataavailable data w)) chunks w.

(** [data.audio_url] of a settled submission; [undefined] when there is
    no body to read it from. *)
Definition audioUrl (r : response) : jsval :=
  match r with
  | Response _ (Some data) => default JUndefined (get data (lit "audio_url"))
  | _ => JUndefined
  end.

(** The response carries an audio reference. *)
Definition carriesAudio (r : response) : bool := truthy (audioUrl r).

(** The response has a success status. *)
Definition succeeded (r : response) : bool :=
  match r with
  | Response ok _ => ok
  | NetworkError => false
  end.

(** [data.error] of a settled submission, when there is a body to read it
    from. *)
Definition errorOf (r : response) : option jsval :=
  match r with
  | Response _ (Some data) => get data (lit "error")
  | _ => None
  end.

(** The part of a submission made after its [await]. *)
Definition resume (s : submission) : response -> M unit :=
  match s with
  | FromRecording => handleRecordingStop_resume
  | FromText => handleTranslate_resume
  | FromFile => handleFileUpload_resume
  end.

(** The default message of each submission. *)
Definition failedMessage (s : submission) : jsstring :=
  match s with
  | FromRecording => lit "Failed to process speech."
  | FromText => lit "Translation failed."
  | FromFile => lit "Failed to process audio file."
  end.

(** Whether a submission plays the audio of a response. *)
Definition plays (s : submission) (r : response) : bool :=
  match s with
  | FromRecording | FromText => succeeded r && carriesAudio r
  | FromFile => carriesAudio r
  end.


(** C7 as worded: a response that arrives after the unmount has no
    effect. *)
Definition late_response_discarded : Prop :=
  forall w p r, mounted w = false ->
    log (env (step (FetchSettled p r) w)) = log (env w).

(** The page is mounted and its effect up to date; [recording] is [rec];
    recorder [r], in state [st], is the one in [mediaRecorderRef]; and
    [chunks] is what [audioChunksRef] holds. *)
Definition in_session (r : nat) (st : recorderState) (rec : bool)
    (chunks : list blob) (w : world) : Prop :=
  mounted w = true /\ effectDep w = recording (state w)
  /\ recording (state w) = rec
  /\ mediaRecorderRef (ref w) = Some r
  /\ recorders (env w) !! r = Some st
  /\ audioChunksRef (ref w) = chunks.

(** *** What the page shows of [error]

    [{error && <p className="error-msg">{error}</p>}] in the returned
    tree.  As a child React takes a string or a number as text, a boolean,
    [null] and [undefined] as nothing and an array as its items; on a
    plain object it throws ("Objects are not valid as a React child").
    Nothing above the page ([App] in part_000) catches what a render
    throws, so such a render takes the whole tree down. *)






(** *** The chunks of a recording *)


(** Recorder [r] was started and its [stop] event has not fired. *)
Definition live (r : nat) (w : world) : Prop :=
  recorders (env w) !! r = Some RecRecording
  \/ recorders (env w) !! r = Some RecStopping.



(** *** The life of the audio contexts *)

(** An effect that neither creates nor closes an audio context. *)
Definition quiet (e : effect) : bool :=
  match e with
  | ContextCreated _ | ContextClosed _ => false
  | _ => true
  end.

(** How many times [close()] was called on context [c] in a trace. *)
Definition closings (c : nat) (l : list effect) : nat :=
  length (List.filter
            (fun e => match e with ContextClosed c' => Nat.eqb c c' | _ => false end) l).

(** In a trace (latest first), a context is created only after [close()]
    was called on every context created before it. *)
Fixpoint released_before_acquired (l : list effect) : Prop :=
  match l with
  | [] => True
  | e :: l' =>
      match e with
      | ContextCreated c => forall c', (c' < c)%nat -> (0 < closings c' l')%nat
      | _ => True
      end
      /\ released_before_acquired l'
  end.

(** The audio contexts are in order: the only context that may be open is
    the one in [audioContextRef], which is open; [close()] was called once
    on each closed context and never on an open one; contexts were created
    in turn. *)
Record tidy (w : world) : Prop := {
  open_is_current : forall c,
    contexts (env w) !! c = Some true -> audioContextRef (ref w) = Some c;
  current_is_open : forall c,
    audioContextRef (ref w) = Some c -> contexts (env w) !! c = Some true;
  closed_once : forall c,
    closings c (log (env w))
    = match contexts (env w) !! c with Some false => 1%nat | _ => 0%nat end;
  in_turn : released_before_acquired (log (env w));
}.

(** A context is held only by the effect of a mounted page that records,
    and the effect has seen the current value of [recording]. *)
Record settled (w : world) : Prop := {
  held_while_recording :
    audioContextRef (ref w) <> None -> effectDep w = true /\ mounted w = true;
  effect_up_to_date : mounted w = true -> effectDep w = recording (state w);
}.

(** [w'] differs from [w] by nothing that concerns the audio contexts. *)
Definition same_audio (w w' : world) : Prop :=
  contexts (env w') = contexts (env w)
  /\ audioContextRef (ref w') = audioContextRef (ref w)
  /\ effectDep w' = effectDep w
  /\ mounted w' = mounted w
  /\ exists l, log (env w') = l ++ log (env w) /\ forallb quiet l = true.

(** A computation that leaves the audio contexts alone. *)
Definition Preserves {A} (m : M A) : Prop := forall w, same_audio w (snd (m w)).

(** *** Scenarios *)

(** A first session is stopped while its visualiser still waits for the
    microphone; the page is started again, and the stale request is
    granted during the second session, before the second session's own;
    then the second session is stopped. *)
Definition staleGrant : list event :=
  [ClickStart; MediaGranted 0; ClickStop;
   ClickStart; MediaGranted 2; MediaGranted 1; MediaGranted 3;
   ClickStop].

(** The same with every microphone request answered in the order it was
    made: two clicks on the start button; the first request is granted and
    the session it starts is stopped before the second is; the second
    request then starts a second session, during which the visualiser's
    request of the first session is granted, then its own. *)
Definition queuedGrant : list event :=
  [ClickStart; ClickStart; MediaGranted 0; ClickStop;
   MediaGranted 1; MediaGranted 2; MediaGranted 3;
   ClickStop].

(** The recorder gets the microphone, the visualiser is refused it; the
    user starts again. *)
Definition refusedThenRestart : list event :=
  [ClickStart; MediaGranted 0; MediaDenied 1 (lit "Permission denied");
   ClickStart; MediaGranted 2].

(** Two clicks on the start button before the microphone is granted. *)
Definition doubleClick : list event :=
  [ClickStart; ClickStart; MediaGranted 0; MediaGranted 1].


(** A text is submitted and the page is left before the answer. *)
Definition leftWhileTranslating : list event :=
  [TypeText (lit "hello"); ClickTranslate; Unmount].

Definition spoken : response :=
  Response true
    (Some (JObj [(lit "translated_text", JStr (lit "namaste"));
                 (lit "audio_url", JStr (lit "/audio/1.mp3"))])).

Definition refused : response :=
  Response false (Some (JObj [(lit "error", JStr (lit "Unsupported language"))])).

Definition refusedWithAudio : response :=
  Response false (Some (JObj [(lit "audio_url", JStr (lit "/audio/2.mp3"))])).




End TranslatorPage.

(* ===================================================================== *)
(** ** The navigation bar, the login page and the sign-out handlers       *)
(* ===================================================================== *)

(** [localStorage]: string keys, string values. *)
Module LocalStorage.

Definition t : Type := gmap jsstring jsstring.

(** The one key the program uses. *)
Definition userEmailKey : jsstring := lit "userEmail".

(** [localStorage.setItem(key, value)]: the value is stored as a string; a
    [null] becomes the string ["null"]. *)
Definition setItem (key : jsstring) (value : option jsstring) (s : t) : t :=
  <[key := default (lit "null") value]> s.

(** [localStorage.removeItem(key)] *)
Definition removeItem (key : jsstring) (s : t) : t := delete key s.

End LocalStorage.

(** [Navbar], in [src/components/PrivateRoute.js] after [PrivateRoute]. *)
Module Navbar.

Import ProfilePage LocalStorage.

(** [userEmail] of [useState(null)], and the browser's [localStorage]. *)
Record world : Type := {
  userEmail : option jsstring;
  localStorage : LocalStorage.t;
}.

Definition mount (stored : LocalStorage.t) : world :=
  {| userEmail := None; localStorage := stored |}.

(** The callback given to [auth.onAuthStateChanged]. *)
Definition onAuthStateChanged (user : option User) (w : world) : world :=
  match user with
  | Some user =>
      {| userEmail := email user;
         localStorage := setItem userEmailKey (email user) (localStorage w) |}
  | None =>
      {| userEmail := None;
         localStorage := removeItem userEmailKey (localStorage w) |}
  end.

Inductive completion : Type := Resolved | Rejected.

(** [handleLogout]: [signedOut] is whether [auth.signOut()] resolves; when
    it rejects, the handler is left at its [await] with nothing done. *)
Definition handleLogout (signedOut : bool) (w : world) : completion * world :=
  if signedOut then
    (Resolved,
     {| userEmail := None;
        localStorage := removeItem userEmailKey (localStorage w) |})
  else (Rejected, w).

(** What the right end of the bar shows. *)
Inductive authView : Type :=
| LoginButton
| UserInfo (label title : jsstring).

(** [userEmail.length > 18 ? userEmail.slice(0, 18) + "..." : userEmail] *)
Definition label (userEmail : jsstring) : jsstring :=
  if (18 <? length userEmail)%nat then take 18 userEmail ++ lit "..."
  else userEmail.

(** [!userEmail ? <button ...Login> : <div className="user-info">] *)
Definition render (w : world) : authView :=
  match userEmail w with
  | None | Some [] => LoginButton
  | Some e => UserInfo (label e) e
  end.

Definition run (pushes : list (option User)) (w : world) : world :=
  fold_left (fun w u => onAuthStateChanged u w) pushes w.

End Navbar.

(** [src/pages/Login.js] *)
Module Login.

Import ProfilePage LocalStorage.

(** [user] of [useState(null)], [localStorage], and the calls of
    [navigate], latest first. *)
Record world : Type := {
  user : option jsstring;
  localStorage : LocalStorage.t;
  navigated : list jsstring;
}.

(** The callback given to [auth.onAuthStateChanged]. *)
Definition onAuthStateChanged (currentUser : option User) (w : world) : world :=
  match currentUser with
  | Some currentUser =>
      {| user := email currentUser;
         localStorage := setItem userEmailKey (email currentUser) (localStorage w);
         navigated := lit "/translate" :: navigated w |}
  | None => w
  end.

End Login.

(** [handleLogout] of [src/pages/profile.js]. *)
Module ProfileLogout.

Import LocalStorage.

(** [localStorage], [window.location.href] and what [console.error] was
    given, latest first. *)
Record world : Type := {
  localStorage : LocalStorage.t;
  href : jsstring;
  console : list (jsstring * jsstring);
}.

(** [signOut] is how [auth.signOut()] settles: [None] resolved, [Some m]
    rejected with an error whose [message] is [m]. *)
Definition handleLogout (signOut : option jsstring) (w : world) : world :=
  match signOut with
  | None =>
      {| localStorage := removeItem userEmailKey (localStorage w);
         href := lit "/login";
         console := console w |}
  | Some m =>
      {| localStorage := localStorage w;
         href := href w;
         console := (lit "Error logging out:", m) :: console w |}
  end.

End ProfileLogout.

(** The provider pushes identities to the profile page one after the
    other. *)
Module ProfileRuns.

Import ProfilePage.

Definition run (pushes : list (option User)) (w : world) : world :=
  fold_left (fun w u => snd (handler u w)) pushes w.

(** An identity without a display name, as a provider other than Google
    may deliver it. *)
Definition nameless : User :=
  {| uid := lit "u3"; email := None; displayName := None; photoURL := None |}.

(** A store that holds a record for [ada]. *)
Definition withAda : world :=
  {| Users := {[ uid ada := {| ud_email := Some (lit "ada@example.org");
                                firstName := lit "Ada"; lastName := lit "L";
                                photo := None |} ]};
     userDetails := None |}.

End ProfileRuns.

(* ===================================================================== *)
(** ** The newsletter form of the home page                               *)
(* ===================================================================== *)

Module HomePage.

(** The [onSubmit] of the newsletter form, given the value of its [email]
    field: what [alert] is called with, and the value of the field
    afterwards ([e.target.reset()] empties it). *)
Definition onSubmit (value : jsstring) : jsstring * jsstring :=
  let email := trim value in
  if truthy (JStr email) then
    (lit "Thank you for subscribing with " ++ email ++ lit "!", [])
  else
    (lit "Please enter a valid email.", value).

End HomePage.

(* ===================================================================== *)
(** ** Runs of the translator page                                        *)
(* ===================================================================== *)

Module TranslatorRuns.

Import TranslatorPage.


(** How many times [drawWaveform] was entered in a trace. *)
Definition draws (l : list effect) : nat :=
  length (List.filter (fun e => match e with Draw => true | _ => false end) l).

(** The page records nothing: [recording] is false, or the page is gone. *)
Definition idle (w : world) : Prop :=
  recording (state w) = false \/ mounted w = false.

(** There is at most one draw loop: a pending frame is the one in
    [animationIdRef], its id is not 0, and an audio context is held. *)
Record one_loop (w : world) : Prop := {
  frame_ids_positive : (0 < nextFrame (env w))%nat;
  pending_frame_is_current : forall id,
    id ∈ frames (env w) ->
    animationIdRef (ref w) = Some id /\ (0 < id)%nat
    /\ audioContextRef (ref w) <> None;
}.

(** In a run from [w], every grant of a visualiser's microphone request
    comes while no frame is pending. *)
Fixpoint lone_grants (es : list event) (w : world) : Prop :=
  match es with
  | [] => True
  | e :: es' =>
      match e with
      | MediaGranted p =>
          pending (env w) !! p = Some ThenInEffect -> frames (env w) = ∅
      | _ => True
      end
      /\ lone_grants es' (step e w)
  end.

(** [mediaRecorderRef] holds the recorder created last. *)
Definition newest (w : world) : Prop :=
  mediaRecorderRef (ref w)
  = match length (recorders (env w)) with
    | O => None
    | S n => Some n
    end.

(** While the page shows that it records, the recorder in
    [mediaRecorderRef] is recording. *)
Definition recorder_runs (w : world) : Prop :=
  recording (state w) = true ->
  exists r, mediaRecorderRef (ref w) = Some r
            /\ recorders (env w) !! r = Some RecRecording.

(** Recorder [r] is recording and [mediaRecorderRef] holds another. *)
Definition orphan (r : nat) (w : world) : Prop :=
  recorders (env w) !! r = Some RecRecording
  /\ mediaRecorderRef (ref w) <> Some r.

(** [m] relates every world to the world it leaves by [R]. *)
Definition Keeps {A} (R : world -> world -> Prop) (m : M A) : Prop :=
  forall w, R w (snd (m w)).

(** [w'] differs from [w] by nothing that concerns the draw loop. *)
Definition same_loop (w w' : world) : Prop :=
  frames (env w') = frames (env w)
  /\ nextFrame (env w') = nextFrame (env w)
  /\ animationIdRef (ref w') = animationIdRef (ref w)
  /\ audioContextRef (ref w') = audioContextRef (ref w).

(** [drawWaveform] was not entered between [w] and [w']. *)
Definition same_draws (w w' : world) : Prop :=
  draws (log (env w')) = draws (log (env w)).

(** Between [w] and [w'] no recorder was created and [recording] was not
    set; a recorder that was recording still is, unless it is the one in
    [mediaRecorderRef] and [recording] is now false. *)
Definition same_recorders (w w' : world) : Prop :=
  mediaRecorderRef (ref w') = mediaRecorderRef (ref w)
  /\ length (recorders (env w')) = length (recorders (env w))
  /\ (recording (state w') = true -> recording (state w) = true)
  /\ forall r, recorders (env w) !! r = Some RecRecording ->
               mediaRecorderRef (ref w) <> Some r \/ recording (state w') = true ->
               recorders (env w') !! r = Some RecRecording.

(** Between [w] and [w'] the chunk list was not touched and recorder [r],
    if it was live, still is. *)
Definition same_take (r : nat) (w w' : world) : Prop :=
  audioChunksRef (ref w') = audioChunksRef (ref w)
  /\ (live r w -> live r w').

(** *** Scenarios *)

(** A session stopped before its visualiser got the microphone. *)
Definition stoppedEarly : list event :=
  [ClickStart; MediaGranted 0; ClickStop].

(** The page with a text typed in. *)
Definition typed : world := step (TypeText (lit " hello ")) (mount true).

(** The translate button clicked twice on that text. *)
Definition twice : world := run [ClickTranslate; ClickTranslate] typed.

(** A session with its draw loop running. *)
Definition drawing : list event :=
  [ClickStart; MediaGranted 0; MediaGranted 1; Frame 1; Frame 2].

(** What may follow two clicks on the start button: the session is
    stopped, its recorder delivers and stops, the page is left. *)
Definition stopAndLeave : list event :=
  [ClickStop; DataAvailable 1 [Byte.x01]; RecorderStop 1; Unmount].


End TranslatorRuns.

(* ===================================================================== *)
(** * Properties                                                          *)
(* ===================================================================== *)

(** ** JavaScript strings *)

Section StringFacts.

Lemma trimStart_white (s : jsstring) :
  forallb is_white s = true -> trimStart s = [].
Proof.
  induction s as [|c s IH]; simpl; [reflexivity|].
  intros H. apply andb_prop in H as [Hc Hs].
  rewrite Hc. auto.
Qed.

(** A string of white space trims to the empty string. *)
Lemma trim_white (s : jsstring) :
  forallb is_white s = true -> trim s = [].
Proof.
  intros H. unfold trim, trimEnd. rewrite (trimStart_white s H). reflexivity.
Qed.

Lemma split_nonempty (sep : N) (s : jsstring) : split sep s <> [].
Proof.
  destruct s as [|c s]; simpl; [discriminate|].
  destruct (c =? sep); [discriminate|].
  destruct (split sep s); discriminate.
Qed.

(** A string without the separator is its own single field. *)
Lemma split_no_sep (sep : N) (s : jsstring) :
  sep ∉ s -> split sep s = [s].
Proof.
  induction s as [|c s IH]; simpl; intros H; [reflexivity|].
  apply not_elem_of_cons in H as [Hc Hs].
  destruct (N.eqb_spec c sep) as [->|_]; [congruence|].
  rewrite (IH Hs). reflexivity.
Qed.

Lemma split_app_sep (sep : N) (s t : jsstring) :
  sep ∉ s -> split sep (s ++ sep :: t) = s :: split sep t.
Proof.
  induction s as [|c s IH]; simpl; intros H.
  - rewrite N.eqb_refl. reflexivity.
  - apply not_elem_of_cons in H as [Hc Hs].
    destruct (N.eqb_spec c sep) as [->|_]; [congruence|].
    rewrite (IH Hs). reflexivity.
Qed.

(** Splitting at the space undoes joining words with single spaces. *)
Lemma split_join (ws : list jsstring) :
  ws <> [] -> Forall (fun w => 32 ∉ w) ws ->
  split 32 (ProfilePage.join ws) = ws.
Proof.
  induction ws as [|w ws IH]; [congruence|].
  intros _ H. apply Forall_cons in H as [Hw Hws].
  destruct ws as [|w' ws].
  - simpl. apply split_no_sep, Hw.
  - change (ProfilePage.join (w :: w' :: ws))
      with (w ++ 32 :: ProfilePage.join (w' :: ws)).
    rewrite split_app_sep by exact Hw.
    rewrite IH; [reflexivity|discriminate|exact Hws].
Qed.

End StringFacts.

(** ** The authentication gate *)

Section GateFacts.

Context {User Element : Type}.
Implicit Types (st : PrivateRoute.state User) (element : Element).

Local Abbreviation init := (@PrivateRoute.init User).

Lemma gate_run_snoc (pushes : list (option User)) (cur : option User) st :
  PrivateRoute.run (pushes ++ [cur]) st
  = PrivateRoute.onAuthStateChanged cur (PrivateRoute.run pushes st).
Proof. unfold PrivateRoute.run. rewrite fold_left_app. reflexivity. Qed.

(** C6: the gate shows the loading placeholder until the provider has
    spoken; after that what it shows is decided by the identity pushed
    last, whatever came before: the login redirect for none, the protected
    element for an identity.  So an identity that becomes none while the
    protected view is shown turns the view into the redirect, and the
    protected element is shown only with an identity at hand. *)
Theorem gate_follows_identity element :
  PrivateRoute.render element init = PrivateRoute.Loading
  /\ (forall pushes cur,
        PrivateRoute.render element (PrivateRoute.run (pushes ++ [cur]) init)
        = match cur with
          | Some _ => PrivateRoute.Protected element
          | None => PrivateRoute.Navigate (lit "/login")
          end)
  /\ (forall pushes u,
        PrivateRoute.render element (PrivateRoute.run (pushes ++ [Some u]) init)
        = PrivateRoute.Protected element
        /\ PrivateRoute.render element (PrivateRoute.run (pushes ++ [Some u; None]) init)
           = PrivateRoute.Navigate (lit "/login"))
  /\ (forall st e,
        PrivateRoute.render element st = PrivateRoute.Protected e ->
        PrivateRoute.loading st = false /\ exists u, PrivateRoute.user st = Some u).
Proof.
  split; [reflexivity|]. split; [|split].
  - intros pushes cur. rewrite gate_run_snoc. destruct cur; reflexivity.
  - intros pushes u. split.
    + rewrite gate_run_snoc. reflexivity.
    + change [Some u; None] with ([Some u] ++ [None]).
      rewrite app_assoc, gate_run_snoc. reflexivity.
  - intros st e. unfold PrivateRoute.render.
    destruct (PrivateRoute.loading st); [discriminate|].
    destruct (PrivateRoute.user st) as [u|]; [|discriminate].
    intros _. split; [reflexivity|]. exists u. reflexivity.
Qed.

End GateFacts.

(** The last part of the theorem above, at a mounted gate that holds an
    identity. *)
Lemma gate_follows_identity_witness :
  PrivateRoute.render 1%nat (PrivateRoute.run [Some 7%nat] PrivateRoute.init)
  = PrivateRoute.Protected 1%nat
  /\ PrivateRoute.loading (PrivateRoute.run [Some 7%nat] PrivateRoute.init) = false
  /\ exists u, PrivateRoute.user (PrivateRoute.run [Some 7%nat] PrivateRoute.init) = Some u.
Proof.
  split; [reflexivity|].
  apply (proj2 (proj2 (proj2 (gate_follows_identity (Element := nat) 1%nat)))
           (PrivateRoute.run [Some 7%nat] PrivateRoute.init) 1%nat).
  reflexivity.
Defined.

(** ** The profile page *)

Section ProfileFacts.

Import ProfilePage.

(** With two spaces between the words the second field of [split] is
    empty: the last name written is empty, not the second word. *)
Lemma second_word_lost_after_double_space :
  ~ writes_spec_words ada (lit "Ada  Lovelace").
Proof.
  intros H.
  specialize (H nobody eq_refl).
  vm_compute in H. discriminate H.
Qed.

(** C10, amended: with no record stored for the identity, a display name
    makes the page write the record whose first name is the part of the
    name before its first space and whose last name is the part between
    the first and the second space, empty when there is none; for a name
    of words joined by single spaces these are the first word and the
    second word (or the empty string).  A null display name makes the
    handler throw, and nothing is written. *)
Theorem profile_first_write (user : User) (w : world) :
  Users w !! uid user = None ->
  (forall name, displayName user = Some name ->
     let data := {| ud_email := email user;
                    firstName := default [] (split 32 name !! 0%nat);
                    lastName := field_or_empty (split 32 name) 1;
                    photo := photoURL user |} in
     handler (Some user) w
     = (Fulfilled, {| Users := <[uid user := data]> (Users w);
                      userDetails := Some data |})
     /\ (forall ws, ws <> [] -> Forall (fun x => 32 ∉ x) ws ->
           name = join ws ->
           firstName data = default [] (ws !! 0%nat)
           /\ lastName data = default [] (ws !! 1%nat)))
  /\ (displayName user = None ->
      handler (Some user) w = (RejectedTypeError, w)).
Proof.
  intros Hnone. split.
  - intros name Hname data. split.
    + unfold handler. rewrite Hnone, Hname. reflexivity.
    + intros ws Hne Hws ->. subst data. simpl.
      rewrite (split_join ws Hne Hws). split; [reflexivity|].
      unfold field_or_empty. destruct (ws !! 1%nat) as [[|c f]|]; reflexivity.
  - intros Hname. unfold handler. rewrite Hnone, Hname. reflexivity.
Qed.

(** The first write for "Grace Hopper", nothing stored yet. *)
Lemma profile_first_write_witness :
  Users nobody !! uid grace = None
  /\ handler (Some grace) nobody
     = (Fulfilled,
        {| Users := {[ uid grace :=
                        {| ud_email := None; firstName := lit "Grace";
                           lastName := lit "Hopper"; photo := None |} ]};
           userDetails := Some {| ud_email := None; firstName := lit "Grace";
                                  lastName := lit "Hopper"; photo := None |} |}).
Proof.
  split; [reflexivity|].
  exact (proj1 (proj1 (profile_first_write grace nobody eq_refl)
                  (lit "Grace Hopper") eq_refl)).
Defined.

End ProfileFacts.

(** ** The translator page *)

Section TranslatorFacts.

Import TranslatorPage.
Local Open Scope js_scope.
Local Arguments lit : simpl never.

Ltac unfold_handlers :=
  unfold resume, handleRecordingStop_resume, handleTranslate_resume,
    handleFileUpload_resume, useResponse, awaitFetch, json, prop, play,
    startRecording, startRecording_resume, await, alert, getUserMedia,
    newPromise, handleRecordingStop, fetch,
    setIsTranslating, setError, setTranslatedText, setDisplayedText,
    setRecording, setState, emit, modify, gets, try_catch, bind, ret, throw,
    plays, succeeded, carriesAudio, audioUrl, errorOf, failedMessage in *.

Ltac close_cases :=
  simpl; repeat split; intros; try discriminate; reflexivity.

(** *** Submissions *)

(** What a settled submission leaves of the world, in every case. *)
Lemma resume_spec (s : submission) (r : response) (w : world) :
  let w' := snd (resume s r w) in
  fst (resume s r w) = inr tt
  /\ ref w' = ref w /\ mounted w' = mounted w /\ effectDep w' = effectDep w
  /\ env w' = (if plays s r
               then put_log (Play (audioUrl r) :: log (env w)) (env w)
               else env w)
  /\ (mounted w = false -> state w' = state w)
  /\ (mounted w = true ->
      text (state w') = text (state w)
      /\ recording (state w') = recording (state w)
      /\ displayedText (state w') = displayedText (state w)
      /\ error (state w')
         = (if plays s r then error (state w)
            else match errorOf r with
                 | Some e => orElse e (JStr (failedMessage s))
                 | None => JStr (lit "Connection error.")
                 end)
      /\ isTranslating (state w')
         = match s with FromFile => isTranslating (state w) | _ => false end).
Proof.
  destruct w as [st rf m dep [sup str recs ctxs pend np fr nf lg]].
  destruct s, r as [|[|] [[| |b|z|str'|items|fields]|]]; unfold_handlers; simpl.
  all: try (destruct (truthy (assoc (lit "audio_url") fields)) eqn:Hu; simpl).
  all: destruct m; close_cases.
Qed.

(** [a || "message"] is never empty. *)
Lemma or_message_truthy (e : jsval) (s : submission) :
  truthy (orElse e (JStr (failedMessage s))) = true.
Proof.
  unfold orElse. destruct (truthy e) eqn:He; [exact He|]. destruct s; reflexivity.
Qed.





(** C9: a settled file upload whose body has a truthy [audio_url] plays
    it and touches no message, whatever the status; the same body on a
    non-success status starts no playback on the recording and the text
    paths, which display a message instead. *)
Theorem upload_plays_whatever_the_status
    (ok : bool) (data u : jsval) (w : world) :
  get data (lit "audio_url") = Some u -> truthy u = true ->
  let w' := snd (handleFileUpload_resume (Response ok (Some data)) w) in
  fst (handleFileUpload_resume (Response ok (Some data)) w) = inr tt
  /\ log (env w') = Play u :: log (env w)
  /\ error (state w') = error (state w)
  /\ (forall s, s = FromRecording \/ s = FromText ->
        let w'' := snd (resume s (Response false (Some data)) w) in
        log (env w'') = log (env w)
        /\ (mounted w = true -> truthy (error (state w'')) = true)).
Proof.
  intros Hget Hu w'.
  assert (Hplays : forall ok', plays FromFile (Response ok' (Some data)) = true).
  { intros ok'. unfold plays, carriesAudio, audioUrl. rewrite Hget. exact Hu. }
  assert (Hurl : forall ok', audioUrl (Response ok' (Some data)) = u).
  { intros ok'. unfold audioUrl. rewrite Hget. reflexivity. }
  destruct (resume_spec FromFile (Response ok (Some data)) w)
    as (Hret & _ & _ & _ & Henv & Hun & Hst).
  change (resume FromFile) with handleFileUpload_resume in *.
  fold w' in Henv, Hun, Hst. rewrite Hplays in Henv, Hst. rewrite Hurl in Henv.
  split; [exact Hret|]. split; [rewrite Henv; reflexivity|]. split.
  - destruct (mounted w) eqn:Hm.
    + destruct (Hst eq_refl) as (_ & _ & _ & Herr & _). exact Herr.
    + rewrite (Hun eq_refl). reflexivity.
  - intros s Hs w''.
    assert (Hno : plays s (Response false (Some data)) = false)
      by (destruct Hs; subst s; reflexivity).
    destruct (resume_spec s (Response false (Some data)) w)
      as (_ & _ & _ & _ & Henv' & _ & Hst').
    fold w'' in Henv', Hst'. rewrite Hno in Henv', Hst'.
    split; [rewrite Henv'; reflexivity|].
    intros Hm. destruct (Hst' Hm) as (_ & _ & _ & Herr & _).
    rewrite Herr. destruct (errorOf (Response false (Some data)));
      [apply or_message_truthy|reflexivity].
Qed.

(** C8: with a text that is empty or all white space, [handleTranslate]
    returns at once: no request is made (the browser, its pending promises
    and its trace are as before), the translation state and the refs are
    untouched, and the mounted page displays the validation message. *)
Theorem blank_text_blocks_translation (w : world) :
  forallb is_white (text (state w)) = true ->
  let w' := snd (handleTranslate w) in
  fst (handleTranslate w) = inr tt
  /\ env w' = env w /\ ref w' = ref w
  /\ translatedText (state w') = translatedText (state w)
  /\ displayedText (state w') = displayedText (state w)
  /\ isTranslating (state w') = isTranslating (state w)
  /\ text (state w') = text (state w)
  /\ recording (state w') = recording (state w)
  /\ (mounted w = true ->
      error (state w')
      = JStr (lit "Please enter or record some text to translate.")).
Proof.
  intros Hblank.
  unfold handleTranslate, bind, gets. rewrite (trim_white _ Hblank). simpl.
  unfold setError, setState. destruct (mounted w); close_cases.
Qed.

(** *** Recording *)

Lemma deliver_spec (chunks : list blob) (w : world) :
  audioChunksRef (ref (deliver chunks w))
  = audioChunksRef (ref w) ++ List.filter (fun c => (0 <? length c)%nat) chunks
  /\ env (deliver chunks w) = env w
  /\ mounted (deliver chunks w) = mounted w.
Proof.
  revert w. induction chunks as [|c chunks IH]; intros w.
  - simpl. rewrite app_nil_r. auto.
  - change (deliver (c :: chunks) w)
      with (deliver chunks (snd (ondataavailable c w))).
    destruct (IH (snd (ondataavailable c w))) as (-> & -> & ->).
    unfold ondataavailable. simpl.
    destruct (0 <? length c)%nat; simpl; [|auto].
    rewrite <- app_assoc. auto.
Qed.

(** The empty chunks that are skipped hold no byte. *)
Lemma concat_nonempty (chunks : list blob) :
  concat (List.filter (fun c => (0 <? length c)%nat) chunks) = concat chunks.
Proof.
  induction chunks as [|c chunks IH]; [reflexivity|].
  simpl. destruct c as [|b c]; simpl; [exact IH|].
  rewrite IH. reflexivity.
Qed.

Lemma startRecording_resume_chunks (stream : nat) (w : world) :
  audioChunksRef (ref (snd (startRecording_resume (inr stream) w))) = [].
Proof.
  destruct w as [st rf [|] dep b]; reflexivity.
Qed.

Lemma handleRecordingStop_log (w : world) :
  log (env (snd (handleRecordingStop w)))
  = Fetch (nextPromise (env w)) speechUrl
      (FormAudio (lit "recording.webm") (Blob (audioChunksRef (ref w))))
    :: log (env w).
Proof.
  destruct w as [st rf [|] dep b]; reflexivity.
Qed.

(** The handlers alone: a recording starts with no chunk; the chunks
    delivered to it are kept in the order of their delivery (the empty ones
    are skipped), and the payload [handleRecordingStop] submits is the
    bytes of all the delivered chunks, in the order of delivery. *)
Lemma delivered_chunks_payload
    (w : world) (stream : nat) (chunks : list blob) :
  let w0 := snd (startRecording_resume (inr stream) w) in
  let w1 := deliver chunks w0 in
  audioChunksRef (ref w0) = []
  /\ audioChunksRef (ref w1)
     = List.filter (fun c => (0 <? length c)%nat) chunks
  /\ Blob (audioChunksRef (ref w1)) = concat chunks
  /\ log (env (snd (handleRecordingStop w1)))
     = Fetch (nextPromise (env w1)) speechUrl
         (FormAudio (lit "recording.webm") (concat chunks))
       :: log (env w1).
Proof.
  intros w0 w1.
  pose proof (startRecording_resume_chunks stream w) as H0. fold w0 in H0.
  destruct (deliver_spec chunks w0) as (Hchunks & _ & _).
  fold w1 in Hchunks. rewrite H0 in Hchunks. simpl in Hchunks.
  assert (Hblob : Blob (audioChunksRef (ref w1)) = concat chunks)
    by (rewrite Hchunks; apply concat_nonempty).
  split; [exact H0|]. split; [exact Hchunks|]. split; [exact Hblob|].
  rewrite handleRecordingStop_log, Hblob. reflexivity.
Qed.



(** *** The event loop *)

Lemma step_eq (e : event) (w : world) :
  step e w
  = snd (try_catch commit uncaught (snd (try_catch (dispatch e) uncaught w))).
Proof.
  unfold step, bind.
  assert (H : fst (try_catch (dispatch e) uncaught w) = inr tt).
  { unfold try_catch. destruct (dispatch e w) as [[ex|[]] w1]; reflexivity. }
  destruct (try_catch (dispatch e) uncaught w) as [res w1]. simpl in *.
  rewrite H. reflexivity.
Qed.

Lemma try_catch_returned (m : M unit) (w : world) :
  fst (m w) = inr tt -> try_catch m uncaught w = (inr tt, snd (m w)).
Proof.
  unfold try_catch. destruct (m w) as [[ex|[]] w1]; simpl; congruence.
Qed.

Lemma dispatch_settled (p : nat) (s : submission) (r : response) (w : world) :
  pending (env w) !! p = Some (AwaitFetch s) ->
  dispatch (FetchSettled p r) w
  = resume s r (with_env (fun b => put_pending (delete p (pending b)) b) w).
Proof.
  intros Hp. unfold dispatch, bind, gets, forget, modify. rewrite Hp.
  destruct s; reflexivity.
Qed.

Lemma commit_unmounted (w : world) :
  mounted w = false -> try_catch commit uncaught w = (inr tt, w).
Proof.
  intros Hm. unfold try_catch, commit, bind, gets. simpl. rewrite Hm. reflexivity.
Qed.

(** Leaving the page cancels no request. *)
Lemma unmount_keeps_pending (w : world) :
  pending (env (step Unmount w)) = pending (env w).
Proof.
  rewrite step_eq.
  destruct w as [st [mr ch [[|fid]|] [c|] an so] [|] [|] b];
    vm_compute; reflexivity.
Qed.

(** C7, amended: leaving the page cancels no pending submission.  When
    its response arrives after the unmount, nothing is thrown and the
    state of the component and its refs stay as they were; but the result
    is not discarded: a response that the submission would play on the
    mounted page is played all the same. *)
Theorem late_response_still_plays
    (w : world) (p : nat) (s : submission) (r : response) :
  mounted w = false ->
  pending (env w) !! p = Some (AwaitFetch s) ->
  let w' := step (FetchSettled p r) w in
  state w' = state w /\ ref w' = ref w /\ mounted w' = false
  /\ log (env w')
     = (if plays s r then Play (audioUrl r) :: log (env w) else log (env w))
  /\ pending (env w') = delete p (pending (env w))
  /\ (forall w0, pending (env (step Unmount w0)) = pending (env w0)).
Proof.
  intros Hm Hp w'. subst w'. rewrite step_eq.
  set (w1 := with_env (fun b => put_pending (delete p (pending b)) b) w).
  assert (Hd : try_catch (dispatch (FetchSettled p r)) uncaught w
               = (inr tt, snd (resume s r w1))).
  { rewrite try_catch_returned; rewrite (dispatch_settled p s r w Hp);
      [reflexivity | apply resume_spec]. }
  rewrite Hd. simpl.
  destruct (resume_spec s r w1) as (_ & Href & Hmounted & _ & Henv & Hst & _).
  rewrite commit_unmounted by (rewrite Hmounted; exact Hm). simpl.
  rewrite Href, Hmounted, Henv, (Hst Hm).
  repeat split; try assumption; try reflexivity.
  - destruct (plays s r); reflexivity.
  - destruct (plays s r); reflexivity.
  - apply unmount_keeps_pending.
Qed.

(** After [leftWhileTranslating] the answer of the backend is played. *)
Lemma late_response_not_discarded : ~ late_response_discarded.
Proof.
  intros H.
  specialize (H (run leftWhileTranslating (mount true)) 0%nat spoken eq_refl).
  vm_compute in H. discriminate H.
Qed.

(** *** Sessions that overlap *)

(** C1, on [staleGrant] and on [queuedGrant]: the second session has left
    the recording state and both audio contexts are closed, each closed
    once; yet a frame of the loop started by the stale grant is still
    pending, because the cleanup cancels only the frame requested last;
    when it fires, [drawWaveform] runs once more and throws on the analyser
    that is gone.  Four microphone streams were opened on the way. *)
Theorem stale_loop_draws_after_stop :
  forall es, es = staleGrant \/ es = queuedGrant ->
  let w := run es (mount true) in
  recording (state w) = false
  /\ contexts (env w) = [false; false]
  /\ List.filter (fun e => match e with ContextClosed _ => true | _ => false end)
       (log (env w)) = [ContextClosed 1; ContextClosed 0]
  /\ animationIdRef (ref w) = Some 2%nat
  /\ elements (frames (env w)) = [1%nat]
  /\ log (env (step (Frame 1) w))
     = Uncaught (TypeError "getByteTimeDomainData") :: Draw :: log (env w)
  /\ streams (env w) = 4%nat.
Proof. intros es [-> | ->]; vm_compute; repeat split; reflexivity. Qed.

(** C2, on [refusedThenRestart] and on [doubleClick]: in both the second
    recorder is started while the first is still recording, and [stop()]
    has been called on neither. *)
Theorem recorders_overlap :
  (let w := run refusedThenRestart (mount true) in
   recorders (env w) = [RecRecording; RecRecording]
   /\ recording (state (run (take 3 refusedThenRestart) (mount true))) = false
   /\ rev (log (env w))
      = [CanvasCleared; StreamOpened 0; RecorderStarted 0; ContextCreated 0;
         ContextClosed 0; CanvasCleared;
         StreamOpened 1; RecorderStarted 1; ContextCreated 1])
  /\ (let w := run doubleClick (mount true) in
      recorders (env w) = [RecRecording; RecRecording]
      /\ rev (log (env w))
         = [CanvasCleared; StreamOpened 0; RecorderStarted 0; ContextCreated 0;
            StreamOpened 1; RecorderStarted 1]).
Proof. vm_compute. repeat split; reflexivity. Qed.

(** *** The theorems above at concrete inputs *)

Lemma stale_loop_draws_after_stop_witness :
  (queuedGrant = staleGrant \/ queuedGrant = queuedGrant)
  /\ recording (state (run queuedGrant (mount true))) = false
  /\ log (env (step (Frame 1) (run queuedGrant (mount true))))
     = Uncaught (TypeError "getByteTimeDomainData") :: Draw
       :: log (env (run queuedGrant (mount true))).
Proof.
  pose proof (stale_loop_draws_after_stop queuedGrant (or_intror eq_refl)) as H.
  split; [right; reflexivity|]. split; [exact (proj1 H)|].
  exact (proj1 (proj2 (proj2 (proj2 (proj2 (proj2 H)))))).
Defined.


Lemma upload_plays_whatever_the_status_witness :
  get (JObj [(lit "audio_url", JStr (lit "/audio/2.mp3"))]) (lit "audio_url")
  = Some (JStr (lit "/audio/2.mp3"))
  /\ truthy (JStr (lit "/audio/2.mp3")) = true
  /\ log (env (snd (handleFileUpload_resume refusedWithAudio (mount true))))
     = Play (JStr (lit "/audio/2.mp3")) :: log (env (mount true))
  /\ (FromRecording = FromRecording \/ FromRecording = FromText)
  /\ log (env (snd (resume FromRecording refusedWithAudio (mount true))))
     = log (env (mount true)).
Proof.
  pose proof (upload_plays_whatever_the_status false
                (JObj [(lit "audio_url", JStr (lit "/audio/2.mp3"))])
                (JStr (lit "/audio/2.mp3")) (mount true) eq_refl eq_refl) as H.
  split; [reflexivity|]. split; [reflexivity|].
  split; [exact (proj1 (proj2 H))|].
  split; [left; reflexivity|].
  exact (proj1 (proj2 (proj2 (proj2 H)) FromRecording (or_introl eq_refl))).
Defined.

Lemma blank_text_blocks_translation_witness :
  forallb is_white (text (state (step (TypeText [32; 9; 10]) (mount true)))) = true
  /\ mounted (step (TypeText [32; 9; 10]) (mount true)) = true
  /\ env (snd (handleTranslate (step (TypeText [32; 9; 10]) (mount true))))
     = env (step (TypeText [32; 9; 10]) (mount true))
  /\ error (state (snd (handleTranslate (step (TypeText [32; 9; 10]) (mount true)))))
     = JStr (lit "Please enter or record some text to translate.").
Proof.
  pose proof (blank_text_blocks_translation
                (step (TypeText [32; 9; 10]) (mount true)) eq_refl) as H.
  split; [reflexivity|]. split; [reflexivity|].
  split; [exact (proj1 (proj2 H))|].
  exact (proj2 (proj2 (proj2 (proj2 (proj2 (proj2 (proj2 (proj2 H))))))) eq_refl).
Defined.


Lemma late_response_still_plays_witness :
  mounted (run leftWhileTranslating (mount true)) = false
  /\ pending (env (run leftWhileTranslating (mount true))) !! 0%nat
     = Some (AwaitFetch FromText)
  /\ state (step (FetchSettled 0 spoken) (run leftWhileTranslating (mount true)))
     = state (run leftWhileTranslating (mount true))
  /\ log (env (step (FetchSettled 0 spoken) (run leftWhileTranslating (mount true))))
     = Play (JStr (lit "/audio/1.mp3"))
       :: log (env (run leftWhileTranslating (mount true))).
Proof.
  pose proof (late_response_still_plays (run leftWhileTranslating (mount true))
                0%nat FromText spoken eq_refl eq_refl) as H.
  split; [reflexivity|]. split; [reflexivity|].
  split; [exact (proj1 H)|].
  exact (proj1 (proj2 (proj2 (proj2 H)))).
Defined.

End TranslatorFacts.

(** ** A recording session on the event loop *)

Section SessionFacts.

Import TranslatorPage.
Local Open Scope js_scope.
Local Open Scope nat_scope.

(** React's commit touches neither the state nor the recorder's side. *)
Lemma commit_session (w : world) :
  let w' := snd (try_catch commit uncaught w) in
  state w' = state w /\ mounted w' = mounted w
  /\ mediaRecorderRef (ref w') = mediaRecorderRef (ref w)
  /\ audioChunksRef (ref w') = audioChunksRef (ref w)
  /\ recorders (env w') = recorders (env w)
  /\ (mounted w = true -> effectDep w' = recording (state w)).
Proof.
  destruct w as [[tx tt' dt sl tl it er rec] [mr ch [[|fid]|] [c|] an so] m dep
                 [[|] str recs ctxs pend np fr nf lg]].
  all: destruct m, rec, dep; repeat split; intros; try discriminate; reflexivity.
Qed.

Lemma commit_idle (w : world) :
  effectDep w = recording (state w) -> try_catch commit uncaught w = (inr tt, w).
Proof.
  intros H. unfold try_catch, commit, bind, gets. cbn [fst snd].
  rewrite H. rewrite eqb_reflx, andb_false_r. reflexivity.
Qed.


Lemma in_session_commit r st rec chunks (w : world) :
  mounted w = true -> recording (state w) = rec ->
  mediaRecorderRef (ref w) = Some r -> recorders (env w) !! r = Some st ->
  audioChunksRef (ref w) = chunks ->
  in_session r st rec chunks (snd (try_catch commit uncaught w)).
Proof.
  intros Hm Hrec Hmr Hr Hch.
  destruct (commit_session w) as (Hs & Hm' & Hmr' & Hch' & Hrecs & Hdep).
  unfold in_session. rewrite Hs, Hm', Hmr', Hch', Hrecs.
  repeat split; auto.
Qed.

Lemma step_granted (w : world) (p : nat) :
  mounted w = true -> recording (state w) = false ->
  pending (env w) !! p = Some AwaitInStart ->
  in_session (length (recorders (env w))) RecRecording true []
    (step (MediaGranted p) w).
Proof.
  intros Hm Hrec Hp. rewrite step_eq.
  destruct w as [st rf m dep [sup str recs ctxs pend np fr nf lg]].
  simpl in Hm, Hrec, Hp. subst m.
  unfold try_catch at 2. unfold dispatch, bind, gets. cbn [fst snd env pending].
  rewrite Hp. cbn.
  apply in_session_commit; cbn; try reflexivity.
  rewrite list_lookup_insert_eq; [reflexivity|].
  rewrite length_app. simpl. lia.
Qed.

Lemma step_data r st rec chunks (data : blob) (w : world) :
  st = RecRecording \/ st = RecStopping ->
  in_session r st rec chunks w ->
  in_session r st rec
    (chunks ++ List.filter (fun c => 0 <? length c) [data])
    (step (DataAvailable r data) w).
Proof.
  intros Hst (Hm & Hdep & Hrec & Hmr & Hr & Hch). rewrite step_eq.
  assert (Hd : try_catch (dispatch (DataAvailable r data)) uncaught w
               = ondataavailable data w).
  { unfold try_catch, dispatch, bind, gets. cbn [fst snd]. rewrite Hr.
    destruct Hst; subst st; unfold ondataavailable;
      destruct (0 <? length data); reflexivity. }
  rewrite Hd. unfold ondataavailable. cbn [List.filter].
  destruct (0 <? length data); cbv [setRef modify ret snd].
  - rewrite (commit_idle (with_ref _ w) Hdep). cbn [snd].
    unfold in_session. cbn. rewrite Hch. repeat split; assumption.
  - rewrite (commit_idle w Hdep). cbn [snd]. rewrite app_nil_r.
    repeat split; assumption.
Qed.

Lemma run_data r st rec (datas : list blob) : forall chunks (w : world),
  st = RecRecording \/ st = RecStopping ->
  in_session r st rec chunks w ->
  in_session r st rec
    (chunks ++ List.filter (fun c => 0 <? length c) datas)
    (run (map (DataAvailable r) datas) w).
Proof.
  induction datas as [|d datas IH]; intros chunks w Hst Hs.
  - simpl. rewrite app_nil_r. exact Hs.
  - change (run (map (DataAvailable r) (d :: datas)) w)
      with (run (map (DataAvailable r) datas) (step (DataAvailable r d) w)).
    pose proof (IH _ _ Hst (step_data r st rec chunks d w Hst Hs)) as H.
    rewrite <- app_assoc, <- List.filter_app in H. exact H.
Qed.

Lemma step_stop r chunks (w : world) :
  in_session r RecRecording true chunks w ->
  in_session r RecStopping false chunks (step ClickStop w).
Proof.
  intros (Hm & Hdep & Hrec & Hmr & Hr & Hch). rewrite step_eq.
  destruct w as [[tx tt' dt sl tl it er rec] [mr ch aid ac an so] m dep
                 [sup str recs ctxs pend np fr nf lg]].
  simpl in *. subst.
  unfold try_catch at 2.
  unfold dispatch, whenMounted, stopRecording, recorderStop, bind, gets.
  cbn [fst snd state ref mounted env recorders recording mediaRecorderRef].
  rewrite Hr. cbn.
  apply in_session_commit; cbn; try assumption; try reflexivity.
  apply list_lookup_insert_eq. eapply lookup_lt_Some; eassumption.
Qed.

Lemma step_recorder_stop r chunks (w : world) :
  in_session r RecStopping false chunks w ->
  log (env (step (RecorderStop r) w))
  = Fetch (nextPromise (env w)) speechUrl
      (FormAudio (lit "recording.webm") (concat chunks))
    :: log (env w).
Proof.
  intros (Hm & Hdep & Hrec & Hmr & Hr & Hch). rewrite step_eq.
  destruct w as [st rf m dep [sup str recs ctxs pend np fr nf lg]].
  simpl in *. subst m.
  unfold try_catch at 2.
  unfold dispatch, bind, gets. cbn [fst snd env recorders]. rewrite Hr. cbn.
  rewrite commit_idle by (cbn; congruence). cbn. rewrite Hch. reflexivity.
Qed.

Lemma run_app (es es' : list event) (w : world) :
  run (es ++ es') w = run es' (run es w).
Proof. unfold run. apply fold_left_app. Qed.

(** A recording on its own: on the mounted, idle page, when the microphone
    request of [startRecording] is granted, the chunks the new recorder
    delivers before and after [stop()] are kept in the order of their
    delivery (the empty ones are skipped); and when the recorder's [stop]
    event fires, the payload submitted to the backend is the bytes of all
    the delivered chunks, in the order of delivery. *)
Lemma isolated_session_payload
    (w : world) (p : nat) (before after : list blob) :
  mounted w = true -> recording (state w) = false ->
  pending (env w) !! p = Some AwaitInStart ->
  let r := length (recorders (env w)) in
  let w1 := run (MediaGranted p :: map (DataAvailable r) before) w in
  let w2 := run (ClickStop :: map (DataAvailable r) after) w1 in
  audioChunksRef (ref w1) = List.filter (fun c => 0 <? length c) before
  /\ audioChunksRef (ref w2)
     = List.filter (fun c => 0 <? length c) (before ++ after)
  /\ log (env (step (RecorderStop r) w2))
     = Fetch (nextPromise (env w2)) speechUrl
         (FormAudio (lit "recording.webm") (concat (before ++ after)))
       :: log (env w2).
Proof.
  intros Hm Hrec Hp r w1 w2.
  assert (H1 : in_session r RecRecording true
                 (List.filter (fun c => 0 <? length c) before) w1).
  { apply (run_data r RecRecording true before [] (step (MediaGranted p) w));
      [left; reflexivity|].
    apply step_granted; assumption. }
  assert (H2 : in_session r RecStopping false
                 (List.filter (fun c => 0 <? length c) (before ++ after)) w2).
  { rewrite List.filter_app.
    apply (run_data r RecStopping false after _ (step ClickStop w1));
      [right; reflexivity|].
    apply step_stop. exact H1. }
  clearbody w2. clearbody w1.
  pose proof (step_recorder_stop r _ w2 H2) as H3.
  rewrite concat_nonempty in H3.
  destruct H1 as (_ & _ & _ & _ & _ & H1).
  destruct H2 as (_ & _ & _ & _ & _ & H2).
  split; [exact H1|]. split; [exact H2|exact H3].
Qed.

End SessionFacts.

(** ** The audio contexts over every run of the page *)

Section AudioContextFacts.

Import TranslatorPage.
Local Open Scope js_scope.
Local Open Scope nat_scope.

Lemma same_audio_refl (w : world) : same_audio w w.
Proof. repeat split. exists []. split; reflexivity. Qed.

Lemma same_audio_trans (w1 w2 w3 : world) :
  same_audio w1 w2 -> same_audio w2 w3 -> same_audio w1 w3.
Proof.
  intros (Hc & Hr & Hd & Hm & l & Hl & Hq) (Hc' & Hr' & Hd' & Hm' & l' & Hl' & Hq').
  repeat split; try congruence.
  exists (l' ++ l). split.
  - rewrite Hl', Hl. apply app_assoc.
  - rewrite forallb_app, Hq, Hq'. reflexivity.
Qed.

(** *** Every primitive but the two on contexts preserves them *)

Lemma preserves_ret {A} (a : A) : Preserves (ret a).
Proof. intros w. apply same_audio_refl. Qed.

Lemma preserves_throw {A} (e : exn) : Preserves (throw (A := A) e).
Proof. intros w. apply same_audio_refl. Qed.

Lemma preserves_gets {A} (f : world -> A) : Preserves (gets f).
Proof. intros w. apply same_audio_refl. Qed.

Lemma preserves_bind {A B} (m : M A) (k : A -> M B) :
  Preserves m -> (forall a, Preserves (k a)) -> Preserves (bind m k).
Proof.
  intros Hm Hk w. unfold bind. specialize (Hm w).
  destruct (m w) as [[e|a] w1]; simpl in *; [exact Hm|].
  eapply same_audio_trans; [exact Hm | apply Hk].
Qed.

Lemma preserves_try_catch (m : M unit) (h : exn -> M unit) :
  Preserves m -> (forall e, Preserves (h e)) -> Preserves (try_catch m h).
Proof.
  intros Hm Hh w. unfold try_catch. specialize (Hm w).
  destruct (m w) as [[e|a] w1]; simpl in *; [|exact Hm].
  eapply same_audio_trans; [exact Hm | apply Hh].
Qed.

Lemma preserves_setState (f : reactState -> reactState) : Preserves (setState f).
Proof.
  intros w. unfold setState. simpl.
  destruct (mounted w) eqn:Hm; [|apply same_audio_refl].
  repeat split; try (symmetry; exact Hm). exists []. split; reflexivity.
Qed.

Lemma preserves_setRef (f : refs -> refs) :
  (forall r, audioContextRef (f r) = audioContextRef r) -> Preserves (setRef f).
Proof.
  intros Hf w. repeat split; [apply Hf|]. exists []. split; reflexivity.
Qed.

Lemma preserves_deref {A} (r : refs -> option A) (prop : string) :
  Preserves (deref r prop).
Proof.
  intros w. unfold deref. destruct (r (ref w)); apply same_audio_refl.
Qed.

Lemma preserves_await {A} (settled : exn + A) : Preserves (await settled).
Proof. intros w. destruct settled; apply same_audio_refl. Qed.

Lemma preserves_emit (e : effect) : quiet e = true -> Preserves (emit e).
Proof.
  intros He w. repeat split. exists [e]. split; [reflexivity|].
  simpl. rewrite He. reflexivity.
Qed.

Lemma preserves_env (f : browser -> browser) :
  (forall b, contexts (f b) = contexts b /\ log (f b) = log b) ->
  Preserves (modify (with_env f)).
Proof.
  intros Hf w. destruct (Hf (env w)) as [Hc Hl].
  repeat split; [exact Hc|]. exists []. split; [exact Hl|reflexivity].
Qed.

Create HintDb preserves.
#[local] Hint Resolve preserves_ret preserves_throw preserves_gets
  preserves_setState preserves_deref preserves_await : preserves.

Ltac preserves_step :=
  first
    [ apply preserves_bind; [|intros ?]
    | apply preserves_try_catch; [|intros ?]
    | apply preserves_emit; reflexivity
    | apply preserves_setRef; intros ?; reflexivity
    | apply preserves_env; intros ?; split; reflexivity
    | solve [auto with preserves]
    | match goal with
      | |- Preserves (if ?b then _ else _) => destruct b
      | |- Preserves (match ?x with _ => _ end) => destruct x
      end ].

Ltac preserves := repeat preserves_step.

Lemma preserves_dispatch (e : event) : e <> Unmount -> Preserves (dispatch e).
Proof.
  intros He. destruct e; try congruence; clear He.
  all: unfold dispatch, whenMounted, startRecording, stopRecording,
         handleTranslate, handleFileUpload, startRecording_resume,
         visualiser_settled, visualiser_then, drawWaveform,
         handleRecordingStop_resume, handleTranslate_resume,
         handleFileUpload_resume, useResponse, handleRecordingStop,
         ondataavailable, forget, setRecorder, openStream, fetch,
         getUserMedia, newPromise, alert, play, prop, json, awaitFetch,
         newMediaRecorder, recorderStart, recorderStop,
         requestAnimationFrame,
         setText, setTranslatedText, setDisplayedText, setSourceLanguage,
         setTargetLanguage, setIsTranslating, setError, setRecording.
  all: preserves.
Qed.

(** *** Tidiness is kept *)

Lemma closings_app (c : nat) (l l' : list effect) :
  closings c (l ++ l') = closings c l + closings c l'.
Proof. unfold closings. rewrite List.filter_app, length_app. reflexivity. Qed.

Lemma closings_quiet (c : nat) (l : list effect) :
  forallb quiet l = true -> closings c l = 0.
Proof.
  induction l as [|e l IH]; [reflexivity|]. simpl. intros H.
  apply andb_prop in H as [He Hl]. unfold closings in *. simpl.
  destruct e; try discriminate He; simpl; exact (IH Hl).
Qed.

Lemma released_quiet (l l' : list effect) :
  forallb quiet l = true ->
  released_before_acquired l' -> released_before_acquired (l ++ l').
Proof.
  induction l as [|e l IH]; [auto|]. simpl. intros H Hl'.
  apply andb_prop in H as [He Hl].
  split; [destruct e; try discriminate He; exact I | exact (IH Hl Hl')].
Qed.

Lemma tidy_same_audio (w w' : world) : same_audio w w' -> tidy w -> tidy w'.
Proof.
  intros (Hc & Hr & _ & _ & l & Hl & Hq) [H1 H2 H3 H4].
  split; rewrite ?Hc, ?Hr, ?Hl; auto.
  - intros c. rewrite closings_app, (closings_quiet c l Hq). apply H3.
  - apply released_quiet; assumption.
Qed.

Lemma tidy_irrelevant (w w' : world) :
  env w' = env w -> ref w' = ref w -> tidy w -> tidy w'.
Proof. intros He Hr [H1 H2 H3 H4]. split; rewrite ?He, ?Hr; assumption. Qed.

(** Closing the context of the ref, when there is one. *)
Lemma closeAudioContext_tidy (w : world) :
  tidy w ->
  let w' := snd (closeAudioContext w) in
  fst (closeAudioContext w) = inr tt
  /\ tidy w' /\ audioContextRef (ref w') = None
  /\ mounted w' = mounted w /\ effectDep w' = effectDep w /\ state w' = state w.
Proof.
  intros Ht. unfold closeAudioContext, bind, gets. simpl.
  destruct (audioContextRef (ref w)) as [c|] eqn:Hc; simpl.
  2:{ split; [reflexivity|]. split; [exact Ht|]. auto. }
  destruct Ht as [H1 H2 H3 H4].
  pose proof (H2 c Hc) as Hopen.
  assert (Hlt : c < length (contexts (env w))) by (eapply lookup_lt_Some; eauto).
  repeat split; simpl.
  - intros c' Hc'. exfalso.
    destruct (decide (c = c')) as [<-|Hne].
    + rewrite list_lookup_insert_eq in Hc' by exact Hlt. discriminate.
    + rewrite list_lookup_insert_ne in Hc' by exact Hne.
      apply H1 in Hc'. congruence.
  - discriminate.
  - intros c'. unfold closings. simpl. fold (closings c' (log (env w))).
    destruct (decide (c = c')) as [<-|Hne].
    + rewrite Nat.eqb_refl. simpl. fold (closings c (log (env w))).
      rewrite list_lookup_insert_eq by exact Hlt.
      rewrite H3, Hopen. reflexivity.
    + rewrite list_lookup_insert_ne by exact Hne.
      destruct (Nat.eqb_spec c' c) as [->|_]; [congruence|].
      apply H3.
  - exact H4.
Qed.

(** Creating a context while the ref is empty. *)
Lemma recordingEffect_true_tidy (w : world) :
  tidy w -> audioContextRef (ref w) = None ->
  let w' := snd (try_catch (recordingEffect true) uncaught w) in
  tidy w' /\ mounted w' = mounted w /\ effectDep w' = effectDep w
  /\ state w' = state w.
Proof.
  intros [H1 H2 H3 H4] Hnone.
  assert (Hclosed : forall c b, contexts (env w) !! c = Some b -> b = false).
  { intros c [|] Hc; [|reflexivity]. apply H1 in Hc. congruence. }
  set (n := length (contexts (env w))).
  assert (Htidy : forall l, forallb quiet l = true ->
            forall w', contexts (env w') = contexts (env w) ++ [true] ->
                       audioContextRef (ref w') = Some n ->
                       log (env w') = l ++ ContextCreated n :: log (env w) ->
                       tidy w').
  { intros l Hl w' Hctx Href Hlog. split; rewrite ?Hctx, ?Href, ?Hlog.
    - intros c Hc. destruct (decide (c < n)) as [Hlt|Hge].
      + rewrite lookup_app_l in Hc by exact Hlt. apply Hclosed in Hc. discriminate.
      + apply lookup_lt_Some in Hc. rewrite length_app in Hc. simpl in Hc.
        f_equal. unfold n in *. lia.
    - intros c [= <-]. rewrite lookup_app_r by reflexivity.
      unfold n. rewrite Nat.sub_diag. reflexivity.
    - intros c. rewrite closings_app, (closings_quiet c l Hl). simpl.
      change (closings c (ContextCreated n :: log (env w)))
        with (closings c (log (env w))).
      rewrite H3. destruct (decide (c < n)) as [Hlt|Hge].
      + rewrite lookup_app_l by exact Hlt. reflexivity.
      + rewrite (lookup_ge_None_2 (contexts (env w)) c) by (unfold n in *; lia).
        destruct (decide (c = n)) as [->|Hne].
        * rewrite lookup_app_r by reflexivity. unfold n.
          rewrite Nat.sub_diag. reflexivity.
        * rewrite lookup_ge_None_2; [reflexivity|].
          rewrite length_app. simpl. unfold n in *. lia.
    - apply released_quiet; [exact Hl|]. simpl. split; [|exact H4].
      intros c Hc. rewrite H3.
      destruct (contexts (env w) !! c) as [b|] eqn:Hb.
      + rewrite (Hclosed c b Hb). lia.
      + apply lookup_ge_None_1 in Hb. unfold n in *. lia. }
  unfold recordingEffect, try_catch, bind, gets, newAudioContext, setRef,
    getUserMedia, newPromise, emit, modify, uncaught, ret, throw. simpl.
  destruct (captureSupported (env w)); simpl.
  - split; [|auto]. apply (Htidy []); reflexivity.
  - split; [|auto].
    apply (Htidy [Uncaught (TypeError "getUserMedia")]); reflexivity.
Qed.

Lemma quiet_step_spec (m : M unit) (w : world) :
  m = cancelPendingFrame \/ m = emit CanvasCleared ->
  fst (m w) = inr tt /\ same_audio w (snd (m w)) /\ state (snd (m w)) = state w.
Proof.
  intros [-> | ->].
  - split; [|split].
    + unfold cancelPendingFrame, bind, gets. simpl.
      destruct (animationIdRef (ref w)) as [[|n]|]; reflexivity.
    + revert w. change (Preserves cancelPendingFrame).
      unfold cancelPendingFrame, cancelAnimationFrame. preserves.
    + unfold cancelPendingFrame, bind, gets. simpl.
      destruct (animationIdRef (ref w)) as [[|n]|]; reflexivity.
  - split; [reflexivity|]. split; [|reflexivity].
    apply preserves_emit. reflexivity.
Qed.

Lemma same_audio_settled_parts (w w' : world) :
  same_audio w w' ->
  (audioContextRef (ref w) <> None -> effectDep w = true /\ mounted w = true) ->
  audioContextRef (ref w') <> None -> effectDep w' = true /\ mounted w' = true.
Proof. intros (_ & -> & -> & -> & _) H. exact H. Qed.

(** The cleanup of the effect leaves no context open and none in the ref. *)
Lemma cleanup_tidy (w : world) :
  tidy w ->
  let w' := snd (cleanup w) in
  fst (cleanup w) = inr tt
  /\ tidy w' /\ audioContextRef (ref w') = None
  /\ mounted w' = mounted w /\ effectDep w' = effectDep w /\ state w' = state w.
Proof.
  intros Ht. unfold cleanup, bind.
  destruct (quiet_step_spec cancelPendingFrame w (or_introl eq_refl))
    as (Hret & Hsame & Hst).
  destruct (cancelPendingFrame w) as [res w1]. simpl in *. subst res.
  destruct (closeAudioContext_tidy w1 (tidy_same_audio _ _ Hsame Ht))
    as (Hret' & Ht' & Hnone & Hm & Hd & Hs).
  destruct Hsame as (_ & _ & Hd1 & Hm1 & _).
  split; [exact Hret'|]. split; [exact Ht'|]. split; [exact Hnone|].
  repeat split; congruence.
Qed.

(** The effect run with [recording] false does the same. *)
Lemma recordingEffect_false_tidy (w : world) :
  tidy w ->
  let w' := snd (recordingEffect false w) in
  fst (recordingEffect false w) = inr tt
  /\ tidy w' /\ audioContextRef (ref w') = None
  /\ mounted w' = mounted w /\ effectDep w' = effectDep w /\ state w' = state w.
Proof.
  intros Ht.
  change (recordingEffect false)
    with (cancelPendingFrame ;; emit CanvasCleared ;; closeAudioContext).
  unfold bind.
  destruct (quiet_step_spec cancelPendingFrame w (or_introl eq_refl))
    as (Hret & Hsame & Hst).
  destruct (cancelPendingFrame w) as [res w1]. cbn [fst snd] in *. subst res.
  cbv beta iota.
  destruct (quiet_step_spec (emit CanvasCleared) w1 (or_intror eq_refl))
    as (Hret2 & Hsame2 & Hst2).
  destruct (emit CanvasCleared w1) as [res w2]. cbn [fst snd] in *. subst res.
  cbv beta iota.
  pose proof (same_audio_trans _ _ _ Hsame Hsame2) as Hsame3.
  destruct (closeAudioContext_tidy w2 (tidy_same_audio _ _ Hsame3 Ht))
    as (Hret' & Ht' & Hnone & Hm & Hd & Hs).
  destruct Hsame3 as (_ & _ & Hd1 & Hm1 & _).
  split; [exact Hret'|]. split; [exact Ht'|]. split; [exact Hnone|].
  repeat split; congruence.
Qed.

(** React's commit brings a tidy world to a tidy and settled one. *)
Lemma commit_tidy (w : world) :
  tidy w ->
  (audioContextRef (ref w) <> None -> effectDep w = true /\ mounted w = true) ->
  let w' := snd (try_catch commit uncaught w) in
  tidy w' /\ settled w'.
Proof.
  intros Ht Hheld.
  assert (Hsame : mounted w && negb (eqb (recording (state w)) (effectDep w)) = false ->
                  tidy w /\ settled w).
  { intros Hc. split; [exact Ht|]. split; [exact Hheld|].
    intros Hm. rewrite Hm in Hc. simpl in Hc.
    apply negb_false_iff, eqb_prop in Hc. congruence. }
  unfold commit, bind, gets, try_catch. cbn [fst snd].
  destruct (mounted w && negb (eqb (recording (state w)) (effectDep w))) eqn:Hc;
    [|exact (Hsame eq_refl)].
  clear Hsame. apply andb_prop in Hc as [Hm Hne].
  apply negb_true_iff, eqb_false_iff in Hne.
  destruct (effectDep w) eqn:Hdep.
  - (* the effect ends a session *)
    assert (Hrec : recording (state w) = false)
      by (destruct (recording (state w)); congruence).
    rewrite Hrec.
    destruct (cleanup_tidy w Ht) as (Hret & Ht1 & Hnone1 & Hm1 & Hd1 & Hs1).
    destruct (cleanup w) as [res w1]. cbn [fst snd] in *. subst res.
    unfold modify. cbv beta iota.
    destruct (recordingEffect_false_tidy (with_effectDep false w1)
                (tidy_irrelevant w1 (with_effectDep false w1) eq_refl eq_refl Ht1))
      as (Hret2 & Ht2 & Hnone2 & Hm2 & Hd2 & Hs2).
    destruct (recordingEffect false (with_effectDep false w1)) as [res w2].
    cbn [fst snd] in *. subst res. cbn [fst snd].
    split; [exact Ht2|]. split; [congruence|].
    intros _. rewrite Hd2, Hs2. cbn. rewrite Hs1. symmetry. exact Hrec.
  - (* the effect starts a session *)
    assert (Hrec : recording (state w) = true)
      by (destruct (recording (state w)); congruence).
    rewrite Hrec.
    assert (Hnone : audioContextRef (ref w) = None).
    { destruct (audioContextRef (ref w)); [|reflexivity].
      destruct Hheld; congruence. }
    unfold ret, modify. cbv beta iota.
    pose proof (recordingEffect_true_tidy (with_effectDep true w)
                  (tidy_irrelevant w (with_effectDep true w) eq_refl eq_refl Ht)
                  Hnone)
      as (Ht' & Hm' & Hd' & Hs').
    unfold try_catch in Ht', Hm', Hd', Hs'.
    destruct (recordingEffect true (with_effectDep true w)) as [[ex|[]] w1];
      cbn [fst snd] in *.
    all: split; [exact Ht'|]; split; intros; rewrite ?Hd', ?Hm', ?Hs'; cbn; auto.
Qed.

(** Leaving the page leaves no context in the ref. *)
Lemma unmount_tidy (w : world) :
  tidy w ->
  (audioContextRef (ref w) <> None -> effectDep w = true /\ mounted w = true) ->
  let w' := snd (try_catch (dispatch Unmount) uncaught w) in
  tidy w' /\ (audioContextRef (ref w') <> None -> effectDep w' = true /\ mounted w' = true).
Proof.
  intros Ht Hheld.
  unfold dispatch, whenMounted, try_catch, bind, gets, modify. cbn [fst snd].
  destruct (mounted w) eqn:Hm.
  2:{ cbn. split; [exact Ht|]. rewrite Hm. exact Hheld. }
  cbv beta iota. change (effectDep (with_mounted false w)) with (effectDep w).
  destruct (effectDep w) eqn:Hdep.
  - destruct (cleanup_tidy (with_mounted false w)
                (tidy_irrelevant w (with_mounted false w) eq_refl eq_refl Ht))
      as (Hret & Ht1 & Hnone1 & _).
    destruct (cleanup (with_mounted false w)) as [res w1].
    cbn [fst snd] in *. subst res. cbn [fst snd].
    split; [exact Ht1|]. congruence.
  - cbn. split; [exact (tidy_irrelevant w (with_mounted false w) eq_refl eq_refl Ht)|].
    intros H. destruct (Hheld H). congruence.
Qed.

Lemma step_tidy (e : event) (w : world) :
  tidy w -> settled w -> tidy (step e w) /\ settled (step e w).
Proof.
  intros Ht [Hheld _]. rewrite step_eq.
  assert (Hcase : e = Unmount \/ e <> Unmount)
    by (destruct e; first [left; reflexivity | right; discriminate]).
  destruct Hcase as [->|He].
  - destruct (unmount_tidy w Ht Hheld) as [Ht1 Hheld1].
    apply commit_tidy; assumption.
  - assert (Hpres : Preserves (try_catch (dispatch e) uncaught)).
    { apply preserves_try_catch; [apply preserves_dispatch; exact He|].
      intros ex. apply preserves_emit. reflexivity. }
    pose proof (Hpres w) as Hsame.
    apply commit_tidy.
    + exact (tidy_same_audio _ _ Hsame Ht).
    + exact (same_audio_settled_parts _ _ Hsame Hheld).
Qed.

Lemma mount_tidy (supported : bool) :
  tidy (mount supported) /\ settled (mount supported).
Proof.
  split; split.
  - intros c Hc. vm_compute in Hc. destruct c; discriminate.
  - intros c Hc. discriminate.
  - intros c. destruct c; reflexivity.
  - vm_compute. auto.
  - intros H. exfalso. apply H. reflexivity.
  - reflexivity.
Qed.

(** Over every run of the page, whatever the order in which clicks,
    promises, frames and recorder events come: the only audio context that
    may be open is the one the effect of the mounted, recording page holds;
    [close()] is called once on each context and never twice; and a context
    is created only after all the earlier ones were closed. *)
Theorem contexts_closed_once_and_in_turn (supported : bool) (es : list event) :
  tidy (run es (mount supported)) /\ settled (run es (mount supported)).
Proof.
  unfold run. generalize (mount_tidy supported). generalize (mount supported).
  induction es as [|e es IH]; intros w [Ht Hs]; [split; assumption|].
  simpl. apply IH. apply step_tidy; assumption.
Qed.

(** Once the page no longer records, or is left, no context is open. *)
Corollary contexts_closed_when_idle (supported : bool) (es : list event) :
  let w := run es (mount supported) in
  recording (state w) = false \/ mounted w = false ->
  Forall (fun open => open = false) (contexts (env w)).
Proof.
  intros w Hidle.
  destruct (contexts_closed_once_and_in_turn supported es) as [Ht [Hheld Hup]].
  fold w in Ht, Hheld, Hup.
  assert (Hnone : audioContextRef (ref w) = None).
  { destruct (audioContextRef (ref w)) eqn:Hc; [|reflexivity].
    destruct Hheld as [Hd Hm]; [discriminate|].
    destruct Hidle as [Hr|Hu]; [|congruence].
    rewrite (Hup Hm) in Hd. congruence. }
  apply Forall_lookup. intros c [|] Hc; [|reflexivity].
  apply (open_is_current w Ht) in Hc. congruence.
Qed.

End AudioContextFacts.

(* ===================================================================== *)
(** * Further properties                                                  *)
(* ===================================================================== *)

(** ** Strings *)

Section MoreStringFacts.

Local Open Scope N_scope.

Lemma trimStart_parts (s : jsstring) :
  exists ws, s = ws ++ trimStart s /\ forallb is_white ws = true.
Proof.
  induction s as [|c s (ws & Hs & Hws)]; [exists []; auto|].
  simpl. destruct (is_white c) eqn:Hc.
  - exists (c :: ws). simpl. rewrite Hc, Hws. split; [congruence|reflexivity].
  - exists []. auto.
Qed.

Lemma trimStart_head (s : jsstring) (c : N) (t : jsstring) :
  trimStart s = c :: t -> is_white c = false.
Proof.
  induction s as [|d s IH]; simpl; [discriminate|].
  destruct (is_white d) eqn:Hd; [exact IH|].
  intros [= <- _]. exact Hd.
Qed.

Lemma forallb_rev_white (s : jsstring) :
  forallb is_white (rev s) = forallb is_white s.
Proof.
  induction s as [|c s IH]; [reflexivity|].
  simpl. rewrite forallb_app, IH. simpl. rewrite andb_true_r. apply andb_comm.
Qed.

Lemma trimEnd_parts (s : jsstring) :
  exists ws, s = trimEnd s ++ ws /\ forallb is_white ws = true.
Proof.
  destruct (trimStart_parts (rev s)) as (ws & Hs & Hws).
  exists (rev ws). split; [|rewrite forallb_rev_white; exact Hws].
  unfold trimEnd. rewrite <- rev_app_distr, <- Hs, rev_involutive. reflexivity.
Qed.

(** [trim] takes white space off both ends and nothing else. *)
Lemma trim_parts (s : jsstring) :
  exists pre post, s = pre ++ trim s ++ post
    /\ forallb is_white pre = true /\ forallb is_white post = true.
Proof.
  destruct (trimStart_parts s) as (pre & Hs & Hpre).
  destruct (trimEnd_parts (trimStart s)) as (post & Ht & Hpost).
  exists pre, post. unfold trim. rewrite <- Ht. auto.
Qed.

Lemma trim_head (s : jsstring) (c : N) (t : jsstring) :
  trim s = c :: t -> is_white c = false.
Proof.
  intros H. destruct (trimEnd_parts (trimStart s)) as (post & Ht & _).
  fold (trim s) in Ht. rewrite H in Ht. simpl in Ht.
  exact (trimStart_head s c _ Ht).
Qed.

Lemma trim_last (s t : jsstring) (c : N) :
  trim s = t ++ [c] -> is_white c = false.
Proof.
  unfold trim, trimEnd. intros H.
  apply (f_equal (@rev N)) in H. rewrite rev_involutive, rev_app_distr in H.
  simpl in H. exact (trimStart_head _ c _ H).
Qed.

Lemma trim_nonblank (s : jsstring) :
  forallb is_white s = false -> trim s <> [].
Proof.
  intros H Hnil. destruct (trim_parts s) as (pre & post & Hs & Hpre & Hpost).
  rewrite Hnil in Hs. simpl in Hs. rewrite Hs, forallb_app, Hpre, Hpost in H.
  discriminate.
Qed.

(** The fields of [split] hold no separator. *)
Lemma split_fields_clean (sep : N) (s : jsstring) :
  Forall (fun f => sep ∉ f) (split sep s).
Proof.
  induction s as [|c s IH]; simpl.
  - repeat constructor. apply not_elem_of_nil.
  - destruct (N.eqb_spec c sep) as [->|Hne].
    + constructor; [apply not_elem_of_nil | exact IH].
    + destruct (split sep s) as [|f fs]; simpl.
      * repeat constructor. intros H. apply list_elem_of_singleton in H. congruence.
      * apply Forall_cons in IH as [Hf Hfs]. constructor; [|exact Hfs].
        intros H. apply elem_of_cons in H as [H|H]; [congruence | exact (Hf H)].
Qed.

(** Joining the fields of [split] with the separator gives the string
    back. *)
Lemma join_split (s : jsstring) : ProfilePage.join (split 32 s) = s.
Proof.
  induction s as [|c s IH]; [reflexivity|].
  simpl. destruct (N.eqb_spec c 32) as [->|Hne].
  - pose proof (split_nonempty 32 s) as Hne.
    destruct (split 32 s) as [|f fs]; [congruence|].
    change (ProfilePage.join ([] :: f :: fs))
      with ([] ++ 32 :: ProfilePage.join (f :: fs)).
    rewrite IH. reflexivity.
  - pose proof (split_nonempty 32 s) as Hn.
    destruct (split 32 s) as [|f fs]; [congruence|].
    destruct fs as [|g fs].
    + simpl in *. congruence.
    + change (ProfilePage.join ((c :: f) :: g :: fs))
        with (c :: (f ++ 32 :: ProfilePage.join (g :: fs))).
      change (ProfilePage.join (f :: g :: fs))
        with (f ++ 32 :: ProfilePage.join (g :: fs)) in IH.
      rewrite IH. reflexivity.
Qed.

End MoreStringFacts.

(** ** The profile page over several pushes *)

Section MoreProfileFacts.

Import ProfilePage ProfileRuns.

Lemma handler_keeps_records (u : option User) (w : world) (k : jsstring) (d : userData) :
  Users w !! k = Some d -> Users (snd (handler u w)) !! k = Some d.
Proof.
  intros Hk. unfold handler.
  destruct u as [u|]; [|exact Hk].
  destruct (Users w !! uid u) eqn:Hu; [exact Hk|].
  destruct (displayName u); [|exact Hk].
  simpl. rewrite lookup_insert_ne; [exact Hk|]. congruence.
Qed.

(** X1: whatever identities are pushed, in whatever order, a record that is in
    the store stays there unchanged: the page writes only where there is no
    record. *)
Theorem profile_records_never_overwritten
    (pushes : list (option User)) (w : world) (k : jsstring) (d : userData) :
  Users w !! k = Some d -> Users (run pushes w) !! k = Some d.
Proof.
  revert w. induction pushes as [|u pushes IH]; intros w Hk; [exact Hk|].
  simpl. apply IH. apply handler_keeps_records. exact Hk.
Qed.

Lemma profile_records_never_overwritten_witness :
  Users withAda !! uid ada
  = Some {| ud_email := Some (lit "ada@example.org");
            firstName := lit "Ada"; lastName := lit "L"; photo := None |}
  /\ Users (run [Some ada; Some grace; None; Some ada] withAda) !! uid ada
     = Some {| ud_email := Some (lit "ada@example.org");
               firstName := lit "Ada"; lastName := lit "L"; photo := None |}.
Proof.
  split; [reflexivity|].
  exact (profile_records_never_overwritten
           [Some ada; Some grace; None; Some ada] withAda (uid ada) _ eq_refl).
Defined.

(** X2: after the first push of an identity has written its record, a second
    push of the same identity reads that record back: it completes, writes
    nothing and shows what the first push showed. *)
Theorem profile_second_push_reads_back (u : User) (w : world) (name : jsstring) :
  Users w !! uid u = None -> displayName u = Some name ->
  let w1 := snd (handler (Some u) w) in
  Users w1 !! uid u = userDetails w1
  /\ userDetails w1 <> None
  /\ handler (Some u) w1 = (Fulfilled, w1).
Proof.
  intros Hnone Hname.
  assert (E : exists d, handler (Some u) w
                        = (Fulfilled, {| Users := <[uid u := d]> (Users w);
                                         userDetails := Some d |})).
  { unfold handler. rewrite Hnone, Hname. eexists. reflexivity. }
  destruct E as [d E]. rewrite E. simpl.
  split; [apply lookup_insert_eq|]. split; [discriminate|].
  unfold handler. simpl. rewrite lookup_insert_eq. reflexivity.
Qed.

Lemma profile_second_push_reads_back_witness :
  Users nobody !! uid grace = None
  /\ displayName grace = Some (lit "Grace Hopper")
  /\ handler (Some grace) (snd (handler (Some grace) nobody))
     = (Fulfilled, snd (handler (Some grace) nobody)).
Proof.
  split; [reflexivity|]. split; [reflexivity|].
  exact (proj2 (proj2 (profile_second_push_reads_back grace nobody
                         (lit "Grace Hopper") eq_refl eq_refl))).
Defined.

(** X3: the names written never hold a space; the first name is the beginning
    of the display name, and the whole of it (with an empty last name) when
    the display name has no space. *)
Theorem profile_names_hold_no_space (u : User) (w : world) (name : jsstring) :
  Users w !! uid u = None -> displayName u = Some name ->
  exists d, userDetails (snd (handler (Some u) w)) = Some d
    /\ (32 ∉ firstName d) /\ (32 ∉ lastName d)
    /\ (exists rest, name = firstName d ++ rest)
    /\ (32 ∉ name -> firstName d = name /\ lastName d = []).
Proof.
  intros Hnone Hname. unfold handler. rewrite Hnone, Hname. simpl.
  eexists. split; [reflexivity|]. simpl.
  pose proof (split_fields_clean 32 name) as Hclean.
  pose proof (join_split name) as Hjoin.
  pose proof (split_nonempty 32 name) as Hne.
  destruct (split 32 name) as [|f fs] eqn:Hsplit; [congruence|].
  apply Forall_cons in Hclean as [Hf Hfs]. simpl.
  split; [exact Hf|]. split; [|split].
  - unfold field_or_empty. simpl. destruct fs as [|[|c g] fs]; simpl.
    + apply not_elem_of_nil.
    + apply not_elem_of_nil.
    + apply Forall_cons in Hfs as [Hg _]. exact Hg.
  - destruct fs as [|g fs].
    + exists []. rewrite app_nil_r. symmetry. exact Hjoin.
    + exists (32 :: join (g :: fs)). symmetry. exact Hjoin.
  - intros Hno. rewrite (split_no_sep 32 name Hno) in Hsplit.
    injection Hsplit as <- <-. split; reflexivity.
Qed.

Lemma profile_names_hold_no_space_witness :
  Users nobody !! uid ada = None
  /\ displayName ada = Some (lit "Ada  Lovelace")
  /\ exists d, userDetails (snd (handler (Some ada) nobody)) = Some d
       /\ (32 ∉ firstName d) /\ (32 ∉ lastName d).
Proof.
  split; [reflexivity|]. split; [reflexivity|].
  destruct (profile_names_hold_no_space ada nobody (lit "Ada  Lovelace")
              eq_refl eq_refl) as (d & Hd & Hf & Hl & _).
  exists d. auto.
Defined.

Lemma handler_nameless (u : option User) (w : world) :
  (forall v, u = Some v -> displayName v = None) ->
  Users (snd (handler u w)) = Users w
  /\ ((forall v, u = Some v -> Users w !! uid v = None) ->
      snd (handler u w) = w).
Proof.
  intros Hname. unfold handler. destruct u as [u|]; [|auto].
  rewrite (Hname u eq_refl).
  destruct (Users w !! uid u) eqn:Hu; simpl; [|auto].
  split; [reflexivity|]. intros H. rewrite (H u eq_refl) in Hu. discriminate.
Qed.

(** X4: identities without a display name never get a record, however often
    they are pushed; and while none of them has a record the page shows
    nothing new (it stays on its loading text). *)
Theorem profile_nameless_never_written (pushes : list (option User)) (w : world) :
  Forall (fun p => forall v, p = Some v -> displayName v = None) pushes ->
  Users (run pushes w) = Users w
  /\ (Forall (fun p => forall v, p = Some v -> Users w !! uid v = None) pushes ->
      run pushes w = w).
Proof.
  revert w. induction pushes as [|u pushes IH]; intros w Hn; [auto|].
  apply Forall_cons in Hn as [Hu Hn]. simpl.
  destruct (handler_nameless u w Hu) as [Hstore Hsame].
  destruct (IH (snd (handler u w)) Hn) as [IH1 IH2].
  split; [congruence|].
  intros Hr. apply Forall_cons in Hr as [Hru Hr].
  rewrite (Hsame Hru) in *. apply IH2. exact Hr.
Qed.

Lemma profile_nameless_never_written_witness :
  Forall (fun p => forall v, p = Some v -> displayName v = None)
    [Some nameless; None; Some nameless]
  /\ Forall (fun p => forall v, p = Some v -> Users nobody !! uid v = None)
       [Some nameless; None; Some nameless]
  /\ run [Some nameless; None; Some nameless] nobody = nobody.
Proof.
  assert (H1 : Forall (fun p => forall v, p = Some v -> displayName v = None)
                 [Some nameless; None; Some nameless]).
  { repeat constructor; intros v [= <-] || intros v [=]; reflexivity. }
  assert (H2 : Forall (fun p => forall v, p = Some v -> Users nobody !! uid v = None)
                 [Some nameless; None; Some nameless]).
  { repeat constructor; intros v _; reflexivity. }
  split; [exact H1|]. split; [exact H2|].
  exact (proj2 (profile_nameless_never_written _ nobody H1) H2).
Defined.

End MoreProfileFacts.

(** ** The navigation bar and the login page *)

Section NavbarFacts.

Import ProfilePage ProfileRuns LocalStorage.

(** X5: the e-mail shown in the bar is at most 21 code units long, begins as
    the e-mail begins, and is the e-mail itself when that has at most 18
    code units; of a longer e-mail it is the first 18 code units followed
    by three dots and nothing else. *)
Theorem navbar_label_bounded (e : jsstring) :
  (length (Navbar.label e) <= 21)%nat
  /\ take 18 (Navbar.label e) = take 18 e
  /\ ((length e <= 18)%nat -> Navbar.label e = e)
  /\ ((18 < length e)%nat -> length (Navbar.label e) = 21%nat)
  /\ ((18 < length e)%nat -> drop 18 (Navbar.label e) = lit "...").
Proof.
  unfold Navbar.label.
  destruct (Nat.ltb_spec 18 (length e)) as [Hlong|Hshort].
  - assert (Hlen : length (take 18 e) = 18%nat) by (rewrite length_take; lia).
    repeat split.
    + rewrite length_app, Hlen. simpl. lia.
    + rewrite take_app_le by lia. rewrite take_take. f_equal.
    + lia.
    + intros _. rewrite length_app, Hlen. reflexivity.
    + intros _. apply drop_app_length'. symmetry. exact Hlen.
  - repeat split; auto; lia.
Qed.

Lemma navbar_label_bounded_witness :
  (18 < length (lit "grace.hopper@example.org"))%nat
  /\ Navbar.label (lit "grace.hopper@example.org") = lit "grace.hopper@examp..."
  /\ (length (lit "ada@example.org") <= 18)%nat
  /\ Navbar.label (lit "ada@example.org") = lit "ada@example.org".
Proof.
  split; [vm_compute; lia|]. split; [reflexivity|].
  assert (H : (length (lit "ada@example.org") <= 18)%nat) by (vm_compute; lia).
  split; [exact H|].
  exact (proj1 (proj2 (proj2 (navbar_label_bounded (lit "ada@example.org")))) H).
Defined.

Lemma navbar_run_snoc (pushes : list (option User)) (cur : option User)
    (w : Navbar.world) :
  Navbar.run (pushes ++ [cur]) w
  = Navbar.onAuthStateChanged cur (Navbar.run pushes w).
Proof. unfold Navbar.run. rewrite fold_left_app. reflexivity. Qed.

Lemma navbar_other_keys (pushes : list (option User)) (w : Navbar.world)
    (k : jsstring) :
  k <> userEmailKey ->
  Navbar.localStorage (Navbar.run pushes w) !! k = Navbar.localStorage w !! k.
Proof.
  intros Hk. revert w. induction pushes as [|u pushes IH]; intros w; [reflexivity|].
  simpl. rewrite IH. destruct u as [u|]; simpl.
  - unfold setItem. apply lookup_insert_ne. congruence.
  - unfold removeItem. apply lookup_delete_ne. congruence.
Qed.

(** X6: after any pushes, what the bar holds follows the identity pushed last:
    its e-mail in [userEmail], and under the key ["userEmail"] of
    [localStorage] the e-mail as a string, which is ["null"] for an
    identity without e-mail, and no entry after a sign-out.  The bar shows
    the login button exactly when that identity is none or has a null or
    empty e-mail.  No other key of [localStorage] is touched. *)
Theorem navbar_follows_last_push
    (pushes : list (option User)) (cur : option User) (stored : LocalStorage.t) :
  let w := Navbar.run (pushes ++ [cur]) (Navbar.mount stored) in
  Navbar.userEmail w = (cur ≫= email)
  /\ Navbar.localStorage w !! userEmailKey
     = (fun u => default (lit "null") (email u)) <$> cur
  /\ (Navbar.render w = Navbar.LoginButton
      <-> (cur ≫= email) = None \/ (cur ≫= email) = Some [])
  /\ (forall k, k <> userEmailKey -> Navbar.localStorage w !! k = stored !! k).
Proof.
  intros w. subst w. rewrite navbar_run_snoc.
  split; [destruct cur; reflexivity|]. split; [|split].
  - destruct cur as [u|]; simpl.
    + apply lookup_insert_eq.
    + apply lookup_delete_eq.
  - unfold Navbar.render. destruct cur as [u|]; simpl.
    + destruct (email u) as [[|c e]|]; simpl.
      * split; auto.
      * split; [discriminate|]. intros [H|H]; discriminate H.
      * split; auto.
    + split; auto.
  - intros k Hk. rewrite <- navbar_run_snoc.
    apply (navbar_other_keys (pushes ++ [cur]) (Navbar.mount stored) k Hk).
Qed.

Lemma navbar_follows_last_push_witness :
  Navbar.localStorage (Navbar.run ([Some ada] ++ [Some nameless]) (Navbar.mount ∅))
    !! userEmailKey = Some (lit "null")
  /\ Navbar.render (Navbar.run ([Some ada] ++ [Some nameless]) (Navbar.mount ∅))
     = Navbar.LoginButton.
Proof.
  pose proof (navbar_follows_last_push [Some ada] (Some nameless) ∅) as H.
  split; [exact (proj1 (proj2 H))|].
  apply (proj1 (proj2 (proj2 H))). left. reflexivity.
Defined.

(** X7: with the bar and the login page both subscribed and sharing
    [localStorage], a push leaves the same [localStorage] whichever of the
    two callbacks runs first; the login page calls [navigate("/translate")]
    once for an identity and never for none, and on none it leaves
    [localStorage] to the bar. *)
Theorem login_and_navbar_agree
    (push : option User) (n : Navbar.world) (l : Login.world) :
  Navbar.localStorage n = Login.localStorage l ->
  let n1 := Navbar.onAuthStateChanged push n in
  let l1 := Login.onAuthStateChanged push
              {| Login.user := Login.user l;
                 Login.localStorage := Navbar.localStorage n1;
                 Login.navigated := Login.navigated l |} in
  let l2 := Login.onAuthStateChanged push l in
  let n2 := Navbar.onAuthStateChanged push
              {| Navbar.userEmail := Navbar.userEmail n;
                 Navbar.localStorage := Login.localStorage l2 |} in
  Login.localStorage l1 = Navbar.localStorage n2
  /\ Login.localStorage l1 = Navbar.localStorage n1
  /\ Login.navigated l1
     = match push with
       | Some _ => lit "/translate" :: Login.navigated l
       | None => Login.navigated l
       end
  /\ (push = None -> Login.localStorage l2 = Login.localStorage l).
Proof.
  intros Hs. destruct push as [u|]; simpl; rewrite <- ?Hs.
  - split; [reflexivity|]. split; [|split; [reflexivity|discriminate]].
    unfold setItem. apply insert_insert_eq.
  - auto.
Qed.

Lemma login_and_navbar_agree_witness :
  Navbar.localStorage (Navbar.mount ∅)
  = Login.localStorage {| Login.user := None; Login.localStorage := ∅;
                          Login.navigated := [] |}
  /\ Login.navigated
       (Login.onAuthStateChanged (Some grace)
          {| Login.user := None;
             Login.localStorage :=
               Navbar.localStorage
                 (Navbar.onAuthStateChanged (Some grace) (Navbar.mount ∅));
             Login.navigated := [] |})
     = [lit "/translate"].
Proof.
  split; [reflexivity|].
  exact (proj1 (proj2 (proj2 (login_and_navbar_agree (Some grace) (Navbar.mount ∅)
           {| Login.user := None; Login.localStorage := ∅;
              Login.navigated := [] |} eq_refl)))).
Defined.

(** X8: signing out from the bar leaves exactly what a push of no identity
    leaves, so that the push which follows the sign-out changes nothing;
    signing out from the profile page removes the stored e-mail too and
    goes to the login page; neither touches another key of [localStorage].
    When [signOut] is rejected, the handler of the bar has done nothing,
    and the one of the profile page has only logged the message: the page
    stays where it is and the stored e-mail is kept. *)
Theorem sign_out_clears_stored_email
    (n : Navbar.world) (p : ProfileLogout.world) (m k : jsstring) :
  let n' := snd (Navbar.handleLogout true n) in
  let p' := ProfileLogout.handleLogout None p in
  let p'' := ProfileLogout.handleLogout (Some m) p in
  n' = Navbar.onAuthStateChanged None n
  /\ Navbar.onAuthStateChanged None n' = n'
  /\ Navbar.render n' = Navbar.LoginButton
  /\ Navbar.localStorage n' !! userEmailKey = None
  /\ ProfileLogout.localStorage p' !! userEmailKey = None
  /\ ProfileLogout.href p' = lit "/login"
  /\ (k <> userEmailKey ->
      Navbar.localStorage n' !! k = Navbar.localStorage n !! k
      /\ ProfileLogout.localStorage p' !! k = ProfileLogout.localStorage p !! k)
  /\ Navbar.handleLogout false n = (Navbar.Rejected, n)
  /\ ProfileLogout.localStorage p'' = ProfileLogout.localStorage p
  /\ ProfileLogout.href p'' = ProfileLogout.href p
  /\ ProfileLogout.console p''
     = (lit "Error logging out:", m) :: ProfileLogout.console p.
Proof.
  intros n' p' p''. subst n' p' p''.
  split; [reflexivity|].
  split.
  { unfold Navbar.handleLogout, Navbar.onAuthStateChanged, removeItem.
    cbn [snd Navbar.localStorage]. f_equal. apply delete_delete_eq. }
  split; [reflexivity|].
  split; [apply lookup_delete_eq|].
  split; [apply lookup_delete_eq|].
  split; [reflexivity|].
  split; [|repeat split].
  intros Hk. split; apply lookup_delete_ne; congruence.
Qed.

Lemma sign_out_clears_stored_email_witness :
  lit "theme" <> userEmailKey
  /\ Navbar.localStorage
       (snd (Navbar.handleLogout true
               (Navbar.run [Some ada]
                  (Navbar.mount {[lit "theme" := lit "dark"]}))))
     !! lit "theme"
     = Navbar.localStorage
         (Navbar.run [Some ada] (Navbar.mount {[lit "theme" := lit "dark"]}))
       !! lit "theme".
Proof.
  assert (H : lit "theme" <> userEmailKey) by (intros H; discriminate H).
  split; [exact H|].
  exact (proj1
           (proj1 (proj2 (proj2 (proj2 (proj2 (proj2 (proj2
              (sign_out_clears_stored_email
                 (Navbar.run [Some ada]
                    (Navbar.mount {[lit "theme" := lit "dark"]}))
                 {| ProfileLogout.localStorage := ∅;
                    ProfileLogout.href := lit "/profile";
                    ProfileLogout.console := [] |}
                 [] (lit "theme")))))))) H)).
Defined.

End NavbarFacts.

(** ** The newsletter form *)

Section HomePageFacts.

(** X9: a value of white space only is refused and left in the field; any
    other value is answered with a message that carries the value without
    the white space at its ends, and nothing else taken off, and the field
    is emptied. *)
Theorem newsletter_answer (value : jsstring) :
  (forallb is_white value = true ->
     HomePage.onSubmit value = (lit "Please enter a valid email.", value))
  /\ (forallb is_white value = false ->
      exists email first rest last_ pre post,
        HomePage.onSubmit value
        = (lit "Thank you for subscribing with " ++ email ++ lit "!", [])
        /\ value = pre ++ email ++ post
        /\ forallb is_white pre = true /\ forallb is_white post = true
        /\ email = first :: rest /\ is_white first = false
        /\ (exists front, email = front ++ [last_]) /\ is_white last_ = false).
Proof.
  unfold HomePage.onSubmit. split.
  - intros H. rewrite (trim_white value H). reflexivity.
  - intros H. pose proof (trim_nonblank value H) as Hne.
    destruct (trim_parts value) as (pre & post & Hv & Hpre & Hpost).
    destruct (trim value) as [|c t] eqn:Ht; [congruence|].
    destruct (exists_last (l := c :: t)) as (front & z & Hlast); [discriminate|].
    exists (c :: t), c, t, z, pre, post. simpl.
    repeat split; try assumption.
    + exact (trim_head value c t Ht).
    + exists front. exact Hlast.
    + rewrite Hlast in Ht. exact (trim_last value front z Ht).
Qed.

Lemma newsletter_answer_witness :
  forallb is_white [32; 9] = true
  /\ HomePage.onSubmit [32; 9] = (lit "Please enter a valid email.", [32; 9])
  /\ forallb is_white (lit " a@b.io ") = false
  /\ exists email first rest last_ pre post,
       HomePage.onSubmit (lit " a@b.io ")
       = (lit "Thank you for subscribing with " ++ email ++ lit "!", [])
       /\ lit " a@b.io " = pre ++ email ++ post
       /\ forallb is_white pre = true /\ forallb is_white post = true
       /\ email = first :: rest /\ is_white first = false
       /\ (exists front, email = front ++ [last_]) /\ is_white last_ = false.
Proof.
  split; [reflexivity|].
  split; [exact (proj1 (newsletter_answer [32; 9]) eq_refl)|].
  split; [reflexivity|].
  exact (proj2 (newsletter_answer (lit " a@b.io ")) eq_refl).
Defined.

End HomePageFacts.

(** ** Submissions from click to answer *)

Section RoundTripFacts.

Import TranslatorPage TranslatorRuns.
Local Open Scope js_scope.
Local Open Scope nat_scope.
Local Arguments lit : simpl never.




(** One turn of the event loop for an answer of the backend, on a page
    whose effect is up to date. *)
Lemma step_settled (p : nat) (s : submission) (r : response) (w : world) :
  effectDep w = recording (state w) \/ mounted w = false ->
  pending (env w) !! p = Some (AwaitFetch s) ->
  step (FetchSettled p r) w
  = snd (resume s r (with_env (fun b => put_pending (delete p (pending b)) b) w)).
Proof.
  intros Hdep Hp. rewrite step_eq.
  set (w1 := with_env (fun b => put_pending (delete p (pending b)) b) w).
  assert (Hd : try_catch (dispatch (FetchSettled p r)) uncaught w
               = (inr tt, snd (resume s r w1))).
  { rewrite try_catch_returned; rewrite (dispatch_settled p s r w Hp);
      [reflexivity | apply resume_spec]. }
  rewrite Hd. cbn [snd].
  destruct (resume_spec s r w1) as (_ & _ & Hm & Hd' & _ & Hun & Hst).
  destruct Hdep as [Hdep|Hdep].
  - destruct (mounted w) eqn:Hmw.
    + rewrite commit_idle; [reflexivity|].
      rewrite Hd'. destruct (Hst Hmw) as (_ & Hrec & _). rewrite Hrec. exact Hdep.
    + rewrite commit_unmounted; [reflexivity|]. rewrite Hm. exact Hmw.
  - rewrite commit_unmounted; [reflexivity|]. rewrite Hm. exact Hdep.
Qed.







(** X12: nothing ties an answer to the request that set [isTranslating]: with
    two requests in flight, the answer to a speech or text submission
    clears [isTranslating] while the other request is still pending. *)
Theorem first_answer_clears_indicator
    (w : world) (p q : nat) (s s' : submission) (r : response) :
  mounted w = true -> effectDep w = recording (state w) ->
  p <> q -> s <> FromFile ->
  pending (env w) !! p = Some (AwaitFetch s) ->
  pending (env w) !! q = Some (AwaitFetch s') ->
  let w' := step (FetchSettled p r) w in
  isTranslating (state w') = false
  /\ pending (env w') !! q = Some (AwaitFetch s').
Proof.
  intros Hm Hdep Hpq Hs Hp Hq w'. subst w'.
  rewrite (step_settled p s r w (or_introl Hdep) Hp).
  set (w2 := with_env _ w).
  assert (Hm2 : mounted w2 = true) by (destruct w; exact Hm).
  destruct (resume_spec s r w2) as (_ & _ & _ & _ & Henv & _ & Hst).
  destruct (Hst Hm2) as (_ & _ & _ & _ & Htr).
  split; [destruct s; [exact Htr | exact Htr | congruence]|].
  rewrite Henv.
  assert (Hq2 : pending (env w2) !! q = Some (AwaitFetch s')).
  { destruct w as [? ? ? ? []]. cbn in *. rewrite lookup_delete_ne by exact Hpq.
    exact Hq. }
  destruct (plays s r); [|exact Hq2].
  destruct (env w2); exact Hq2.
Qed.

Lemma first_answer_clears_indicator_witness :
  isTranslating (state twice) = true
  /\ isTranslating (state (step (FetchSettled 0 refused) twice)) = false
  /\ pending (env (step (FetchSettled 0 refused) twice)) !! 1
     = Some (AwaitFetch FromText).
Proof.
  split; [reflexivity|].
  exact (first_answer_clears_indicator twice 0 1 FromText FromText refused
           eq_refl eq_refl
           (fun H : 0 = 1 => O_S 0 H)
           (fun H : FromText = FromFile =>
              eq_ind FromText
                (fun s => match s with FromText => True | _ => False end) I _ H)
           eq_refl eq_refl).
Defined.

End RoundTripFacts.

(** ** The visualiser *)

Section VisualiserFacts.

Import TranslatorPage TranslatorRuns.
Local Open Scope js_scope.
Local Open Scope nat_scope.
Local Arguments lit : simpl never.

(** A page that does not record, or is gone, holds no audio context. *)
Lemma idle_holds_no_context (supported : bool) (es : list event) :
  idle (run es (mount supported)) ->
  audioContextRef (ref (run es (mount supported))) = None.
Proof.
  intros Hidle.
  destruct (contexts_closed_once_and_in_turn supported es) as [_ [Hheld Hup]].
  destruct (audioContextRef (ref (run es (mount supported)))) eqn:Hc; [|reflexivity].
  destruct Hheld as [Hd Hm]; [discriminate|].
  destruct Hidle as [Hr|Hu]; [|congruence].
  rewrite (Hup Hm) in Hd. congruence.
Qed.

(** X13: over every run of the page: [close()] is called at most once on an
    audio context; at most one context is open at a time, and it is the
    one the effect of the mounted, recording page holds in
    [audioContextRef]; a context is created only after [close()] was
    called on all the earlier ones. *)
Theorem audio_contexts_one_at_a_time (supported : bool) (es : list event) :
  let w := run es (mount supported) in
  (forall c, closings c (log (env w)) <= 1)
  /\ (forall c c', contexts (env w) !! c = Some true ->
                   contexts (env w) !! c' = Some true -> c = c')
  /\ (forall c, contexts (env w) !! c = Some true ->
                audioContextRef (ref w) = Some c
                /\ recording (state w) = true /\ mounted w = true)
  /\ released_before_acquired (log (env w)).
Proof.
  intros w.
  destruct (contexts_closed_once_and_in_turn supported es) as [Ht [Hheld Hup]].
  fold w in Ht, Hheld, Hup.
  split; [|split; [|split]].
  - intros c. rewrite (closed_once w Ht).
    destruct (contexts (env w) !! c) as [[|]|]; lia.
  - intros c c' Hc Hc'.
    apply (open_is_current w Ht) in Hc. apply (open_is_current w Ht) in Hc'.
    congruence.
  - intros c Hc. apply (open_is_current w Ht) in Hc.
    destruct Hheld as [Hd Hm]; [congruence|].
    split; [exact Hc|]. split; [|exact Hm]. rewrite <- (Hup Hm). exact Hd.
  - exact (in_turn w Ht).
Qed.

(** X14: when the microphone request of a visualiser is granted after the page
    has left the recording state (the session was stopped before the
    answer came), the stream is opened all the same and then found to be
    of no use: no context is there to attach it to, nothing is drawn and no
    frame is requested, and the page that had stopped recording displays
    the message of a refused microphone, with the wording of the
    [TypeError]. *)
Theorem grant_after_stop_reports_denial
    (supported : bool) (es : list event) (p : nat) :
  let w := run es (mount supported) in
  mounted w = true -> recording (state w) = false ->
  pending (env w) !! p = Some ThenInEffect ->
  let w' := step (MediaGranted p) w in
  error (state w')
  = JStr (lit "Mic access denied or error: "
          ++ message (TypeError "createMediaStreamSource"))
  /\ recording (state w') = false
  /\ log (env w') = StreamOpened (streams (env w)) :: log (env w)
  /\ streams (env w') = S (streams (env w))
  /\ frames (env w') = frames (env w)
  /\ contexts (env w') = contexts (env w)
  /\ ref w' = ref w.
Proof.
  intros w Hm Hrec Hp w'. subst w'.
  assert (Hnone : audioContextRef (ref w) = None)
    by (apply idle_holds_no_context; left; exact Hrec).
  destruct (contexts_closed_once_and_in_turn supported es) as [_ [_ Hup]].
  fold w in Hup. specialize (Hup Hm). rewrite Hrec in Hup.
  clearbody w. rewrite step_eq.
  destruct w as [[tx tt' dt sl tl it er rec] [mr ch aid ac an so] m dep
                 [sup str recs ctxs pend np fr nf lg]].
  simpl in Hm, Hrec, Hp, Hnone, Hup. subst m rec ac dep.
  unfold try_catch, dispatch, bind, gets. cbn [fst snd env pending].
  rewrite Hp. cbn.
  repeat split.
Qed.

Lemma grant_after_stop_reports_denial_witness :
  mounted (run stoppedEarly (mount true)) = true
  /\ recording (state (run stoppedEarly (mount true))) = false
  /\ pending (env (run stoppedEarly (mount true))) !! 1 = Some ThenInEffect
  /\ error (state (step (MediaGranted 1) (run stoppedEarly (mount true))))
     = JStr (lit "Mic access denied or error: "
             ++ message (TypeError "createMediaStreamSource")).
Proof.
  split; [reflexivity|]. split; [reflexivity|]. split; [reflexivity|].
  exact (proj1 (grant_after_stop_reports_denial true stoppedEarly 1
                  eq_refl eq_refl eq_refl)).
Defined.

End VisualiserFacts.

(** ** Relations kept by the handlers *)

Section KeepsFacts.

Import TranslatorPage TranslatorRuns.
Local Open Scope js_scope.

Context (R : world -> world -> Prop) `{!Reflexive R} `{!Transitive R}.

Lemma keeps_ret {A} (a : A) : Keeps R (ret a).
Proof. intros w. reflexivity. Qed.

Lemma keeps_throw {A} (e : exn) : Keeps R (throw (A := A) e).
Proof. intros w. reflexivity. Qed.

Lemma keeps_gets {A} (f : world -> A) : Keeps R (gets f).
Proof. intros w. reflexivity. Qed.

Lemma keeps_bind {A B} (m : M A) (k : A -> M B) :
  Keeps R m -> (forall a, Keeps R (k a)) -> Keeps R (bind m k).
Proof.
  intros Hm Hk w. unfold bind. specialize (Hm w).
  destruct (m w) as [[e|a] w1]; simpl in *; [exact Hm|].
  etransitivity; [exact Hm | apply Hk].
Qed.

Lemma keeps_bind_throw {A B} (e : exn) (k : A -> M B) :
  Keeps R (bind (throw e) k).
Proof. intros w. reflexivity. Qed.

Lemma keeps_try_catch (m : M unit) (h : exn -> M unit) :
  Keeps R m -> (forall e, Keeps R (h e)) -> Keeps R (try_catch m h).
Proof.
  intros Hm Hh w. unfold try_catch. specialize (Hm w).
  destruct (m w) as [[e|a] w1]; simpl in *; [|exact Hm].
  etransitivity; [exact Hm | apply Hh].
Qed.

Lemma keeps_deref {A} (r : refs -> option A) (prop : string) :
  Keeps R (deref r prop).
Proof. intros w. unfold deref. destruct (r (ref w)); reflexivity. Qed.

Lemma keeps_await {A} (settled : exn + A) : Keeps R (await settled).
Proof. intros w. destruct settled; reflexivity. Qed.

Lemma keeps_modify (f : world -> world) :
  (forall w, R w (f w)) -> Keeps R (modify f).
Proof. intros Hf w. apply Hf. Qed.

Lemma keeps_setState (f : reactState -> reactState) :
  (forall w, R w (with_state f w)) -> Keeps R (setState f).
Proof.
  intros Hf w. unfold setState. cbn [snd].
  destruct (mounted w); [apply Hf | reflexivity].
Qed.

End KeepsFacts.

(** ** The recorders and the draw loop, over every run *)

Section RunFacts.

Import TranslatorPage TranslatorRuns.
Local Open Scope js_scope.
Local Open Scope nat_scope.
Local Arguments lit : simpl never.

#[local] Instance same_recorders_refl : Reflexive same_recorders.
Proof. intros w. repeat split; auto. Qed.

#[local] Instance same_recorders_trans : Transitive same_recorders.
Proof.
  intros w1 w2 w3 (Hr & Hl & Hrec & Ho) (Hr' & Hl' & Hrec' & Ho').
  split; [congruence|]. split; [congruence|]. split; [auto|].
  intros r H1 [Hne|Hon].
  - apply Ho'; [apply Ho; [exact H1 | left; exact Hne]|].
    left. rewrite Hr. exact Hne.
  - apply Ho'; [apply Ho; [exact H1 | right; auto]|]. right. exact Hon.
Qed.

#[local] Instance same_loop_refl : Reflexive same_loop.
Proof. intros w. repeat split. Qed.

#[local] Instance same_loop_trans : Transitive same_loop.
Proof.
  intros w1 w2 w3 (H1 & H2 & H3 & H4) (H1' & H2' & H3' & H4').
  repeat split; congruence.
Qed.

#[local] Instance same_draws_refl : Reflexive same_draws.
Proof. intros w. reflexivity. Qed.

#[local] Instance same_draws_trans : Transitive same_draws.
Proof. intros w1 w2 w3 H H'. unfold same_draws in *. congruence. Qed.

Ltac related :=
  intros ?;
  lazymatch goal with
  | |- same_draws _ _ => reflexivity
  | |- same_loop _ _ => repeat split
  | |- same_take _ _ _ =>
      split; [reflexivity | let H := fresh in intros H; exact H]
  | |- same_recorders _ _ =>
      split; [reflexivity|]; split; [reflexivity|]; split;
      [ let H := fresh in intros H; first [exact H | discriminate H]
      | let H := fresh in intros ? H _; exact H ]
  end.

Ltac keeps_step :=
  first
    [ apply keeps_bind_throw; exact _
    | apply keeps_bind; [exact _| |intros ?]
    | apply keeps_try_catch; [exact _| |intros ?]
    | apply keeps_ret; exact _
    | apply keeps_throw; exact _
    | apply keeps_gets; exact _
    | apply keeps_deref; exact _
    | apply keeps_await; exact _
    | apply keeps_setState; [exact _ | solve [related]]
    | apply keeps_modify; solve [related]
    | match goal with
      | |- Keeps _ (if ?b then _ else _) => destruct b
      | |- Keeps _ (match ?x with _ => _ end) => destruct x
      end ].

Ltac keeps := repeat keeps_step.

Ltac unfold_page :=
  unfold dispatch, commit, cleanup, recordingEffect, cancelPendingFrame,
    closeAudioContext, whenMounted, startRecording, stopRecording,
    handleTranslate, handleFileUpload, startRecording_resume,
    visualiser_settled, visualiser_then, drawWaveform,
    handleRecordingStop_resume, handleTranslate_resume,
    handleFileUpload_resume, useResponse, handleRecordingStop,
    ondataavailable, forget, setRecorder, openStream, fetch,
    getUserMedia, newPromise, alert, play, prop, json, awaitFetch,
    newMediaRecorder, recorderStart, recorderStop,
    requestAnimationFrame, cancelAnimationFrame, newAudioContext,
    closeContext, uncaught, emit, setRef,
    setText, setTranslatedText, setDisplayedText, setSourceLanguage,
    setTargetLanguage, setIsTranslating, setError, setRecording.

(** The callbacks that neither create nor stop a recorder. *)
Lemma keeps_recorders_dispatch (e : event) :
  match e with
  | ClickStop | MediaGranted _ | RecorderStop _ => False
  | _ => True
  end ->
  Keeps same_recorders (dispatch e).
Proof.
  intros He. destruct e; try contradiction; clear He.
  all: unfold_page; cbn [await].
  all: keeps.
Qed.

Lemma keeps_recorders_visualiser (settled : exn + nat) :
  Keeps same_recorders (visualiser_settled settled).
Proof. destruct settled; unfold_page; cbn [await]; keeps. Qed.

Lemma keeps_recorders_handleRecordingStop :
  Keeps same_recorders handleRecordingStop.
Proof. unfold_page. keeps. Qed.

Lemma keeps_recorders_uncaught (e : exn) : Keeps same_recorders (uncaught e).
Proof. unfold_page. keeps. Qed.

Lemma commit_same_recorders (w : world) :
  same_recorders w (snd (try_catch commit uncaught w)).
Proof.
  destruct (commit_session w) as (Hs & _ & Hmr & _ & Hrecs & _).
  split; [exact Hmr|]. split; [rewrite Hrecs; reflexivity|].
  split; [rewrite Hs; auto|].
  intros r Hr _. rewrite Hrecs. exact Hr.
Qed.

Lemma caught_same_recorders (m : M unit) (w : world) :
  same_recorders w (snd (m w)) ->
  same_recorders w (snd (try_catch m uncaught w)).
Proof.
  intros H. unfold try_catch. destruct (m w) as [[ex|[]] w1]; cbn [snd] in *.
  - etransitivity; [exact H | apply keeps_recorders_uncaught].
  - exact H.
Qed.

(** [stop()] is called on the recorder in [mediaRecorderRef] only, and
    [recording] is false afterwards. *)
Lemma click_stop_same_recorders (w : world) :
  same_recorders w (snd (dispatch ClickStop w)).
Proof.
  destruct w as [[tx tt' dt sl tl it er rec] [mr ch aid ac an so] m dep
                 [sup str recs ctxs pend np fr nf lg]].
  unfold dispatch, whenMounted, stopRecording, recorderStop, bind, gets.
  cbn [fst snd state ref mounted env recorders recording mediaRecorderRef].
  destruct rec; [|reflexivity].
  destruct m; [|reflexivity].
  destruct mr as [r|]; [|reflexivity].
  cbn [fst snd state ref mounted env recorders recording mediaRecorderRef].
  destruct (recs !! r) as [[| |]|] eqn:Hr; unfold same_recorders; cbn.
  all: split; [reflexivity|]; split; [rewrite ?length_insert; reflexivity|].
  all: split; [intros H; discriminate H|].
  all: cbn; intros r' Hr' [Hne|Hon]; [|discriminate Hon].
  all: try exact Hr'.
  rewrite list_lookup_insert_ne; [exact Hr'|congruence].
Qed.

(** The [stop] event of a recorder ends a recorder that was stopping. *)
Lemma recorder_stop_same_recorders (r : nat) (w : world) :
  same_recorders w (snd (dispatch (RecorderStop r) w)).
Proof.
  unfold dispatch, bind at 1, gets. cbn [fst snd].
  destruct (recorders (env w) !! r) as [[| |]|] eqn:Hr; try reflexivity.
  assert (H1 : same_recorders w (snd (setRecorder r RecInactive w))).
  { unfold setRecorder, modify, same_recorders. cbn.
    split; [reflexivity|]. split; [rewrite length_insert; reflexivity|].
    split; [auto|]. intros r' Hr' _.
    rewrite list_lookup_insert_ne; [exact Hr'|congruence]. }
  unfold bind. cbn [setRecorder modify fst snd] in *.
  etransitivity; [exact H1 | apply keeps_recorders_handleRecordingStop].
Qed.

(** A granted request that is not the one of [startRecording]. *)
Lemma granted_same_recorders (p : nat) (w : world) :
  pending (env w) !! p <> Some AwaitInStart ->
  same_recorders w (snd (dispatch (MediaGranted p) w)).
Proof.
  intros Hp. unfold dispatch, bind at 1, gets. cbn [fst snd].
  destruct (pending (env w) !! p) as [[| |s]|]; try reflexivity; [congruence|].
  assert (K : Keeps same_recorders
                (forget p ;; s ← openStream ; visualiser_settled (inr s))%js).
  { apply keeps_bind; [exact _| |intros ?].
    - unfold_page. keeps.
    - apply keeps_bind; [exact _| |intros ?].
      + unfold_page. keeps.
      + apply keeps_recorders_visualiser. }
  apply K.
Qed.

(** The granted request of [startRecording]: a new recorder, which is
    started and put in [mediaRecorderRef]. *)
Lemma granted_recorders (p : nat) (w : world) :
  pending (env w) !! p = Some AwaitInStart ->
  let n := length (recorders (env w)) in
  let w' := step (MediaGranted p) w in
  mediaRecorderRef (ref w') = Some n
  /\ recorders (env w') = <[n := RecRecording]> (recorders (env w) ++ [RecInactive]).
Proof.
  intros Hp n w'. subst n w'. rewrite step_eq.
  destruct (commit_session
              (snd (try_catch (dispatch (MediaGranted p)) uncaught w)))
    as (_ & _ & Hmr & _ & Hrecs & _).
  rewrite Hmr, Hrecs. clear Hmr Hrecs.
  destruct w as [st rf m dep [sup str recs ctxs pend np fr nf lg]].
  simpl in Hp.
  unfold try_catch, dispatch, bind, gets. cbn [fst snd env pending].
  rewrite Hp. destruct m; cbn; split; reflexivity.
Qed.

Lemma step_same_recorders (e : event) (w : world) :
  (forall p, e = MediaGranted p -> pending (env w) !! p <> Some AwaitInStart) ->
  same_recorders w (step e w).
Proof.
  intros He. rewrite step_eq.
  etransitivity; [|apply commit_same_recorders].
  apply caught_same_recorders.
  destruct e.
  3-8,10-13,15: apply keeps_recorders_dispatch; exact I.
  - apply keeps_recorders_dispatch; exact I.
  - apply click_stop_same_recorders.
  - apply granted_same_recorders. apply He. reflexivity.
  - apply recorder_stop_same_recorders.
Qed.

Lemma event_cases (e : event) (w : world) :
  (exists p, e = MediaGranted p /\ pending (env w) !! p = Some AwaitInStart)
  \/ (forall p, e = MediaGranted p -> pending (env w) !! p <> Some AwaitInStart).
Proof.
  destruct e; try (right; intros ? ?; discriminate).
  destruct (pending (env w) !! p) as [[| |s]|] eqn:Hp.
  - left. exists p. split; [reflexivity | exact Hp].
  - right. intros ? [= <-]. congruence.
  - right. intros ? [= <-]. congruence.
  - right. intros ? [= <-]. congruence.
Qed.

Lemma step_recorders (e : event) (w : world) :
  newest w -> recorder_runs w ->
  newest (step e w) /\ recorder_runs (step e w).
Proof.
  intros Hn Hr.
  destruct (event_cases e w) as [(p & -> & Hp)|He].
  - destruct (granted_recorders p w Hp) as [Hmr Hrecs].
    split.
    + unfold newest. rewrite Hmr, Hrecs, length_insert, length_app.
      cbn [length]. rewrite Nat.add_1_r. reflexivity.
    + intros _. exists (length (recorders (env w))).
      split; [exact Hmr|]. rewrite Hrecs.
      apply list_lookup_insert_eq. rewrite length_app. cbn [length]. lia.
  - destruct (step_same_recorders e w He) as (Hmr & Hl & Hrec & Ho).
    split.
    + unfold newest in *. rewrite Hmr, Hl. exact Hn.
    + intros Hon. destruct (Hr (Hrec Hon)) as (r & Hc & Hs).
      exists r. split; [rewrite Hmr; exact Hc|].
      apply Ho; [exact Hs | right; exact Hon].
Qed.

Lemma step_orphan (e : event) (r : nat) (w : world) :
  orphan r w -> orphan r (step e w).
Proof.
  intros [Hs Hne].
  destruct (event_cases e w) as [(p & -> & Hp)|He].
  - destruct (granted_recorders p w Hp) as [Hmr Hrecs].
    pose proof (lookup_lt_Some _ _ _ Hs) as Hlt.
    split.
    + rewrite Hrecs. rewrite list_lookup_insert_ne by lia.
      rewrite lookup_app_l by exact Hlt. exact Hs.
    + rewrite Hmr. intros [= H]. lia.
  - destruct (step_same_recorders e w He) as (Hmr & _ & _ & Ho).
    split; [apply Ho; [exact Hs | left; exact Hne]|].
    rewrite Hmr. exact Hne.
Qed.

(** X15: over every run of the page: [mediaRecorderRef] holds the recorder
    created last (none when none was created), and while [recording] is
    true that recorder is recording. *)
Theorem current_recorder_is_newest_and_runs
    (supported : bool) (es : list event) :
  let w := run es (mount supported) in
  newest w
  /\ (recording (state w) = true ->
      exists r, mediaRecorderRef (ref w) = Some r
                /\ S r = length (recorders (env w))
                /\ recorders (env w) !! r = Some RecRecording).
Proof.
  intros w.
  assert (H : newest w /\ recorder_runs w).
  { subst w. unfold run.
    assert (H0 : newest (mount supported) /\ recorder_runs (mount supported)).
    { split; [reflexivity|]. intros H. destruct supported; discriminate H. }
    revert H0. generalize (mount supported).
    induction es as [|e es IH]; intros w [Hn Hr]; [split; assumption|].
    cbn [fold_left]. apply IH. apply step_recorders; assumption. }
  destruct H as [Hn Hr]. split; [exact Hn|].
  intros Hon. destruct (Hr Hon) as (r & Hc & Hs).
  exists r. split; [exact Hc|]. split; [|exact Hs].
  unfold newest in Hn. rewrite Hc in Hn.
  destruct (length (recorders (env w))); congruence.
Qed.

(** X16: a recorder that is recording while [mediaRecorderRef] holds another
    one (the first of two started by two clicks, say) is out of reach:
    whatever happens next, [stop()] is never called on it and it goes on
    recording, also after the page is left. *)
Theorem orphan_recorder_never_stops
    (w : world) (es : list event) (r : nat) :
  recorders (env w) !! r = Some RecRecording ->
  mediaRecorderRef (ref w) <> Some r ->
  recorders (env (run es w)) !! r = Some RecRecording
  /\ mediaRecorderRef (ref (run es w)) <> Some r.
Proof.
  intros Hs Hne. change (orphan r (run es w)).
  assert (H : orphan r w) by (split; assumption). clear Hs Hne.
  revert w H. unfold run.
  induction es as [|e es IH]; intros w H; [exact H|].
  cbn [fold_left]. apply IH. apply step_orphan. exact H.
Qed.

Lemma orphan_recorder_never_stops_witness :
  recorders (env (run doubleClick (mount true))) !! 0 = Some RecRecording
  /\ mediaRecorderRef (ref (run doubleClick (mount true))) <> Some 0
  /\ recorders (env (run stopAndLeave (run doubleClick (mount true)))) !! 0
     = Some RecRecording.
Proof.
  assert (Hne : mediaRecorderRef (ref (run doubleClick (mount true))) <> Some 0)
    by (intros H; discriminate H).
  split; [reflexivity|]. split; [exact Hne|].
  exact (proj1 (orphan_recorder_never_stops (run doubleClick (mount true))
                  stopAndLeave 0 eq_refl Hne)).
Defined.

(** *** The draw loop *)

Lemma keeps_loop_dispatch (e : event) :
  match e with
  | MediaGranted _ | Frame _ | Unmount => False
  | _ => True
  end ->
  Keeps same_loop (dispatch e).
Proof.
  intros He. destruct e; try contradiction; clear He.
  all: unfold_page; cbn [await].
  all: keeps.
Qed.

Lemma keeps_draws_dispatch (e : event) :
  match e with
  | MediaGranted _ | Frame _ => False
  | _ => True
  end ->
  Keeps same_draws (dispatch e).
Proof.
  intros He. destruct e; try contradiction; clear He.
  all: unfold_page; cbn [await].
  all: keeps.
Qed.

Lemma keeps_draws_commit : Keeps same_draws (try_catch commit uncaught).
Proof. unfold_page. keeps. Qed.

Lemma keeps_loop_started (s : nat) :
  Keeps same_loop (startRecording_resume (inr s)).
Proof. unfold_page. cbn [await]. keeps. Qed.

Lemma keeps_draws_started (s : nat) :
  Keeps same_draws (startRecording_resume (inr s)).
Proof. unfold_page. cbn [await]. keeps. Qed.

Lemma one_loop_same_loop (w w' : world) :
  same_loop w w' -> one_loop w -> one_loop w'.
Proof.
  intros (Hf & Hn & Ha & Hc) [Hpos Hcur].
  split; [rewrite Hn; exact Hpos|].
  intros id. rewrite Hf, Ha, Hc. apply Hcur.
Qed.

Lemma in_minus (X : gset nat) (i j : nat) : i ∈ X ∖ {[j]} -> i ∈ X /\ i <> j.
Proof.
  intros H. apply elem_of_difference in H. destruct H as [H1 H2].
  split; [exact H1|]. intros ->. apply H2. apply elem_of_singleton. reflexivity.
Qed.

Lemma in_plus (X : gset nat) (i j : nat) : i ∈ {[j]} ∪ X -> i = j \/ i ∈ X.
Proof.
  intros H. apply elem_of_union in H. destruct H as [H|H]; [left|right; exact H].
  apply elem_of_singleton in H. exact H.
Qed.

Ltac pending_frame Hcur :=
  let id' := fresh "id'" in
  let Hin := fresh "Hin" in
  let Ha := fresh "Ha" in
  let Hp := fresh "Hp" in
  let Hc := fresh "Hc" in
  intros id' Hin;
  repeat (apply in_minus in Hin; destruct Hin as [Hin ?]);
  destruct (Hcur id' Hin) as (Ha & Hp & Hc);
  first
    [ discriminate Ha
    | exfalso; injection Ha as Ha; subst; first [lia | congruence]
    | split; [exact Ha | split; [exact Hp | first [exact Hc | discriminate]]] ].

Lemma commit_one_loop (w : world) :
  one_loop w -> one_loop (snd (try_catch commit uncaught w)).
Proof.
  intros [Hpos Hcur].
  destruct w as [[tx tt' dt sl tl it er rec] [mr ch aid ac an so] m dep
                 [sup str recs ctxs pend np fr nf lg]].
  cbn in Hpos, Hcur.
  destruct m; [|split; [exact Hpos | exact Hcur]].
  destruct rec, dep; try (split; [exact Hpos | exact Hcur]).
  - destruct sup; split; try exact Hpos.
    all: intros id' Hin; destruct (Hcur id' Hin) as (Ha & Hp & _).
    all: split; [exact Ha|]; split; [exact Hp | discriminate].
  - destruct aid as [[|n]|], ac as [c|]; split; try exact Hpos.
    all: pending_frame Hcur.
Qed.

Lemma unmount_one_loop (w : world) :
  one_loop w -> one_loop (snd (try_catch (dispatch Unmount) uncaught w)).
Proof.
  intros [Hpos Hcur].
  destruct w as [[tx tt' dt sl tl it er rec] [mr ch aid ac an so] m dep
                 [sup str recs ctxs pend np fr nf lg]].
  cbn in Hpos, Hcur.
  destruct m, dep, aid as [[|n]|], ac as [c|]; cbn.
  all: split; cbn; [exact Hpos|].
  all: pending_frame Hcur.
Qed.

Lemma frame_one_loop (id : nat) (w : world) :
  one_loop w -> one_loop (snd (try_catch (dispatch (Frame id)) uncaught w)).
Proof.
  intros [Hpos Hcur].
  destruct w as [[tx tt' dt sl tl it er rec] [mr ch aid ac an so] m dep
                 [sup str recs ctxs pend np fr nf lg]].
  cbn in Hpos, Hcur.
  unfold try_catch, dispatch, bind, gets. cbn [fst snd env frames].
  destruct (bool_decide (id ∈ fr)) eqn:Hdue; [|split; [exact Hpos | exact Hcur]].
  apply bool_decide_eq_true_1 in Hdue.
  destruct (Hcur id Hdue) as (Ha & Hp & Hc).
  destruct an as [a|]; cbn.
  all: split; cbn; [lia|].
  all: intros id' Hin.
  - apply in_plus in Hin. destruct Hin as [->|Hin].
    + split; [reflexivity|]. split; [exact Hpos | exact Hc].
    + apply in_minus in Hin. destruct Hin as [Hin Hne].
      destruct (Hcur id' Hin) as (Ha' & _). congruence.
  - apply in_minus in Hin. destruct Hin as [Hin Hne].
    destruct (Hcur id' Hin) as (Ha' & _). congruence.
Qed.

Lemma keeps_loop_granted_start (p : nat) :
  Keeps same_loop (forget p ;; s ← openStream ; startRecording_resume (inr s))%js.
Proof.
  apply keeps_bind; [exact _| |intros ?].
  - unfold_page. keeps.
  - apply keeps_bind; [exact _| |intros ?].
    + unfold_page. keeps.
    + apply keeps_loop_started.
Qed.

Lemma keeps_draws_granted_start (p : nat) :
  Keeps same_draws (forget p ;; s ← openStream ; startRecording_resume (inr s))%js.
Proof.
  apply keeps_bind; [exact _| |intros ?].
  - unfold_page. keeps.
  - apply keeps_bind; [exact _| |intros ?].
    + unfold_page. keeps.
    + apply keeps_draws_started.
Qed.

Lemma keeps_loop_uncaught (e : exn) : Keeps same_loop (uncaught e).
Proof. unfold_page. keeps. Qed.

Lemma keeps_draws_uncaught (e : exn) : Keeps same_draws (uncaught e).
Proof. unfold_page. keeps. Qed.

Lemma caught_same_loop (m : M unit) (w : world) :
  same_loop w (snd (m w)) -> same_loop w (snd (try_catch m uncaught w)).
Proof.
  intros H. unfold try_catch. destruct (m w) as [[ex|[]] w1]; cbn [snd] in *.
  - etransitivity; [exact H | apply keeps_loop_uncaught].
  - exact H.
Qed.

Lemma caught_same_draws (m : M unit) (w : world) :
  same_draws w (snd (m w)) -> same_draws w (snd (try_catch m uncaught w)).
Proof.
  intros H. unfold try_catch. destruct (m w) as [[ex|[]] w1]; cbn [snd] in *.
  - etransitivity; [exact H | apply keeps_draws_uncaught].
  - exact H.
Qed.

(** A grant that comes while no frame is pending starts at most one
    loop. *)
Lemma granted_one_loop (p : nat) (w : world) :
  one_loop w ->
  (pending (env w) !! p = Some ThenInEffect -> frames (env w) = ∅) ->
  one_loop (snd (try_catch (dispatch (MediaGranted p)) uncaught w)).
Proof.
  intros Hone Hlone.
  destruct (pending (env w) !! p) as [[| |s]|] eqn:Hp.
  - apply (one_loop_same_loop w); [|exact Hone].
    apply caught_same_loop.
    unfold dispatch, bind at 1, gets. cbn [fst snd]. rewrite Hp.
    apply keeps_loop_granted_start.
  - specialize (Hlone eq_refl). destruct Hone as [Hpos Hcur].
    destruct w as [[tx tt' dt sl tl it er rec] [mr ch aid ac an so] m dep
                   [sup str recs ctxs pend np fr nf lg]].
    cbn in Hpos, Hcur, Hlone, Hp. subst fr.
    unfold try_catch, dispatch, bind, gets. cbn [fst snd env pending].
    rewrite Hp.
    destruct ac as [c|], m; cbn.
    all: split; cbn; [lia|].
    all: intros id' Hin.
    all: try (apply in_plus in Hin; destruct Hin as [->|Hin]).
    all: try (apply elem_of_empty in Hin; contradiction).
    all: split; [reflexivity|]; split; [exact Hpos | discriminate].
  - unfold try_catch, dispatch, bind, gets. cbn [fst snd]. rewrite Hp. exact Hone.
  - unfold try_catch, dispatch, bind, gets. cbn [fst snd]. rewrite Hp. exact Hone.
Qed.

Lemma step_one_loop (e : event) (w : world) :
  one_loop w ->
  (forall p, e = MediaGranted p ->
     pending (env w) !! p = Some ThenInEffect -> frames (env w) = ∅) ->
  one_loop (step e w).
Proof.
  intros Hone Hlone. rewrite step_eq. apply commit_one_loop.
  destruct e.
  1-8,10-11,13-14:
    apply (one_loop_same_loop w); [|exact Hone];
    apply caught_same_loop; apply keeps_loop_dispatch; exact I.
  - apply granted_one_loop; [exact Hone | apply Hlone; reflexivity].
  - apply frame_one_loop. exact Hone.
  - apply unmount_one_loop. exact Hone.
Qed.

Lemma run_one_loop (es : list event) : forall w,
  one_loop w -> lone_grants es w -> one_loop (run es w).
Proof.
  induction es as [|e es IH]; intros w Hone Hlone; [exact Hone|].
  destruct Hlone as [He Hes].
  change (run (e :: es) w) with (run es (step e w)).
  apply IH; [|exact Hes].
  apply step_one_loop; [exact Hone|].
  intros p ->. exact He.
Qed.

Lemma mount_one_loop (supported : bool) : one_loop (mount supported).
Proof.
  split; [cbn; lia|].
  intros id Hin. cbn in Hin. apply elem_of_empty in Hin. contradiction.
Qed.

(** No event makes an idle page with no pending frame draw. *)
Lemma idle_step_draws (e : event) (w : world) :
  audioContextRef (ref w) = None -> frames (env w) = ∅ ->
  same_draws w (step e w).
Proof.
  intros Hnone Hempty. rewrite step_eq.
  etransitivity; [|apply keeps_draws_commit].
  apply caught_same_draws.
  destruct e.
  1-8,10-11,13-15: apply keeps_draws_dispatch; exact I.
  - unfold dispatch, bind at 1, gets. cbn [fst snd].
    destruct (pending (env w) !! p) as [[| |s]|] eqn:Hp; try reflexivity.
    + apply keeps_draws_granted_start.
    + destruct w as [[tx tt' dt sl tl it er rec] [mr ch aid ac an so] m dep
                     [sup str recs ctxs pend np fr nf lg]].
      cbn in Hnone. subst ac. destruct m; reflexivity.
  - unfold dispatch, bind, gets. cbn [fst snd]. rewrite Hempty.
    reflexivity.
Qed.

(** X17: when every grant of a visualiser's microphone request comes while no
    frame is pending, there is at most one draw loop at any time of the
    run: a pending frame is the one in [animationIdRef], which the next
    cleanup cancels, and an audio context is there for it.  Then the page
    that does not record, or is gone, has no frame pending, and nothing
    that happens to it draws. *)
Theorem lone_grants_leave_no_loop (supported : bool) (es : list event) :
  lone_grants es (mount supported) ->
  let w := run es (mount supported) in
  one_loop w
  /\ (idle w ->
      frames (env w) = ∅
      /\ forall e, draws (log (env (step e w))) = draws (log (env w))).
Proof.
  intros Hlone w.
  assert (Hone : one_loop w)
    by (apply run_one_loop; [apply mount_one_loop | exact Hlone]).
  split; [exact Hone|].
  intros Hidle.
  pose proof (idle_holds_no_context supported es Hidle) as Hnone. fold w in Hnone.
  assert (Hempty : frames (env w) = ∅).
  { apply leibniz_equiv. apply elem_of_equiv_empty. intros id Hin.
    destruct (pending_frame_is_current w Hone id Hin) as (_ & _ & Hc).
    exact (Hc Hnone). }
  split; [exact Hempty|].
  intros e. exact (idle_step_draws e w Hnone Hempty).
Qed.

Lemma lone_grants_leave_no_loop_witness :
  lone_grants drawing (mount true)
  /\ one_loop (run drawing (mount true)).
Proof.
  assert (H : lone_grants drawing (mount true)).
  { repeat split; intros H; first [reflexivity | discriminate H]. }
  split; [exact H|].
  exact (proj1 (lone_grants_leave_no_loop true drawing H)).
Defined.

(** *** The chunks of a recording *)

#[local] Instance same_take_refl (r : nat) : Reflexive (same_take r).
Proof. intros w. split; auto. Qed.

#[local] Instance same_take_trans (r : nat) : Transitive (same_take r).
Proof.
  intros w1 w2 w3 [Hc Hl] [Hc' Hl']. split; [congruence | auto].
Qed.




















End RunFacts.
